(** * RestDriver: a Thrift-shaped facade over the REST statement-execution API

    Shallow embedding of [lib/rest/RestDriver.ts].  The driver keeps three
    mutable fields ([session], [currentStatement], [currentResultChunk]) and
    talks to a REST client through four asynchronous methods.  Driver methods
    are embedded as programs of a small free monad whose only effect is a
    remote call; the driver object is threaded explicitly, so the fields a
    method has written are still visible after it throws. *)

From stdpp Require Import base numbers option list strings.

Local Open Scope Z_scope.

(** ** REST-side data ([lib/rest/Types]) *)

(** Modelled from the spec: the enum [StatementState] of [lib/rest/Types],
    which is not part of the sources at hand.  The six named states are the
    ones the driver switches on; [Unrecognized] stands for any other value
    the remote service may send (the [default] branches). *)
Module StatementState.
Inductive t : Set :=
| Canceled | Closed | Failed | Pending | Running | Succeeded
| Unrecognized (raw : string).
End StatementState.

(** Modelled from the spec: the enum [ColumnInfoTypeName] of
    [lib/rest/Types]; [Unrecognized] stands for a name outside the enum. *)
Module ColumnInfoTypeName.
Inductive t : Set :=
| Array | Binary | Boolean | Byte | Char | Date | Decimal | Double | Float
| Int | Interval | Long | Map | Null | Short | String | Struct | Timestamp
| UserDefinedType
| Unrecognized (raw : string).
End ColumnInfoTypeName.

Module Disposition.
Inductive t : Set := Inline | ExternalLinks.
End Disposition.

Module Format.
Inductive t : Set := JsonArray | ArrowStream.
End Format.

Module TimeoutAction.
Inductive t : Set := Continue | Cancel.
End TimeoutAction.

Record ServiceError : Set := {
  error_code : string;
  message : string;
}.

(** "status (state + optional error)". *)
Record StatementStatus : Set := {
  state : StatementState.t;
  error : option ServiceError;
}.

Record ColumnInfo : Set := {
  name : string;
  position : Z;
  type_name : ColumnInfoTypeName.t;
}.

Record ResultSchema : Set := {
  column_count : Z;
  columns : list ColumnInfo;
}.

Record ResultManifest : Set := {
  schema : option ResultSchema;
}.

(** A chunk: rows of cells, and the index of the next chunk if there is one. *)
Record ResultData : Set := {
  chunk_index : option Z;
  next_chunk_index : option Z;
  data_array : option (list (list string));
}.

Record ExecuteStatementResponse : Set := {
  statement_id : string;
  status : StatementStatus;
  manifest : option ResultManifest;
  result : option ResultData;
}.

(** What [getStatement] answers; the driver reads these three fields. *)
Record GetStatementResponse : Set := {
  gs_status : StatementStatus;
  gs_manifest : option ResultManifest;
  gs_result : option ResultData;
}.

Record ExecuteStatementRequest : Set := {
  rq_catalog : option string;
  rq_schema : option string;
  rq_disposition : Disposition.t;
  rq_format : Format.t;
  rq_on_wait_timeout : TimeoutAction.t;
  rq_wait_timeout : string;
  rq_warehouse_id : string;
  rq_statement : string;
}.

(** ** Thrift-side data ([thrift/TCLIService_types]) *)

Module TOperationState.
Inductive t : Set :=
| INITIALIZED_STATE | RUNNING_STATE | FINISHED_STATE | CANCELED_STATE
| CLOSED_STATE | ERROR_STATE | UKNOWN_STATE | PENDING_STATE
| TIMEDOUT_STATE.
End TOperationState.

Module TTypeId.
Inductive t : Set :=
| BOOLEAN_TYPE | TINYINT_TYPE | SMALLINT_TYPE | INT_TYPE | BIGINT_TYPE
| FLOAT_TYPE | DOUBLE_TYPE | STRING_TYPE | TIMESTAMP_TYPE | BINARY_TYPE
| ARRAY_TYPE | MAP_TYPE | STRUCT_TYPE | UNION_TYPE | USER_DEFINED_TYPE
| DECIMAL_TYPE | NULL_TYPE | DATE_TYPE | VARCHAR_TYPE | CHAR_TYPE
| INTERVAL_YEAR_MONTH_TYPE | INTERVAL_DAY_TIME_TYPE.
End TTypeId.

Module TStatusCode.
Inductive t : Set :=
| SUCCESS_STATUS | SUCCESS_WITH_INFO_STATUS | STILL_EXECUTING_STATUS
| ERROR_STATUS | INVALID_HANDLE_STATUS.
End TStatusCode.

Module TOperationType.
Inductive t : Set :=
| EXECUTE_STATEMENT | GET_TYPE_INFO | GET_CATALOGS | GET_SCHEMAS
| GET_TABLES | GET_TABLE_TYPES | GET_COLUMNS | GET_FUNCTIONS | UNKNOWN.
End TOperationType.

Module TSparkRowSetType.
Inductive t : Set :=
| ARROW_BASED_SET | COLUMN_BASED_SET | ROW_BASED_SET | URL_BASED_SET.
End TSparkRowSetType.

(** Modelled from the spec: [TProtocolVersion] is a numeric Thrift enum whose
    declaration is not part of the sources at hand; a version is the number
    the enum member stands for.  The default the driver falls back to is
    [SPARK_CLI_SERVICE_PROTOCOL_V6] (0xA506); the Hive members count up from
    [HIVE_CLI_SERVICE_PROTOCOL_V1 = 0]. *)
Module TProtocolVersion.
Definition t : Set := Z.
Definition HIVE_CLI_SERVICE_PROTOCOL_V1 : t := 0.
Definition HIVE_CLI_SERVICE_PROTOCOL_V2 : t := 1.
Definition SPARK_CLI_SERVICE_PROTOCOL_V1 : t := 42241.
Definition SPARK_CLI_SERVICE_PROTOCOL_V6 : t := 42246.
End TProtocolVersion.

Record TStatus : Set := {
  statusCode : TStatusCode.t;
  errorMessage : option string;
}.

(** [Buffer.alloc n]: [n] zero bytes. *)
Definition Buffer_alloc (n : nat) : list Byte.byte := replicate n Byte.x00.

Record THandleIdentifier : Set := {
  guid : list Byte.byte;
  secret : list Byte.byte;
}.

Record TSessionHandle : Set := { sessionId : THandleIdentifier }.

Record TOperationHandle : Set := {
  operationId : THandleIdentifier;
  operationType : TOperationType.t;
  hasResultSet : bool;
}.

Record TNamespace : Set := {
  catalogName : option string;
  schemaName : option string;
}.

Record TOpenSessionReq : Set := {
  client_protocol : option TProtocolVersion.t;
  initialNamespace : option TNamespace;
}.

Record TOpenSessionResp : Set := {
  os_status : TStatus;
  serverProtocolVersion : TProtocolVersion.t;
  sessionHandle : option TSessionHandle;
}.

Record TCloseSessionReq : Set := { cs_sessionHandle : TSessionHandle }.
Record TCloseSessionResp : Set := { cs_status : TStatus }.

Record TExecuteStatementReq : Set := { statement : string }.

Record TExecuteStatementResp : Set := {
  es_status : TStatus;
  operationHandle : option TOperationHandle;
}.

(** The requests below are never read by the driver. *)
Record TGetResultSetMetadataReq : Set := {
  md_operationHandle : TOperationHandle;
}.
Record TFetchResultsReq : Set := { fr_operationHandle : TOperationHandle }.
Record TGetOperationStatusReq : Set := {
  st_operationHandle : TOperationHandle;
}.
Record TCancelOperationReq : Set := { ca_operationHandle : TOperationHandle }.
Record TCloseOperationReq : Set := { co_operationHandle : TOperationHandle }.

Record TPrimitiveTypeEntry : Set := { type : TTypeId.t }.
Record TTypeEntry : Set := { primitiveEntry : TPrimitiveTypeEntry }.
Record TTypeDesc : Set := { types : list TTypeEntry }.

Record TColumnDesc : Set := {
  columnName : string;
  typeDesc : TTypeDesc;
  cd_position : Z;
}.

Record TTableSchema : Set := { ts_columns : list TColumnDesc }.

Record TGetResultSetMetadataResp : Set := {
  md_status : TStatus;
  resultFormat : option TSparkRowSetType.t;
  md_schema : option TTableSchema;
}.

Record TStringColumn : Set := {
  values : list string;
  nulls : list Byte.byte;
}.

(** A [TColumn] is a union of typed columns; this driver only ever fills
    [stringVal], the other members stay unset. *)
Record TColumn : Set := { stringVal : option TStringColumn }.

Record TRow : Set := { colVals : list string }.

Record TRowSet : Set := {
  startRowOffset : Z;
  rows : list TRow;
  rs_columns : list TColumn;
  columnCount : nat;
}.

Record TFetchResultsResp : Set := {
  fr_status : TStatus;
  hasMoreRows : option bool;
  results : option TRowSet;
}.

Record TGetOperationStatusResp : Set := {
  st_status : TStatus;
  operationState : option TOperationState.t;
  errorCode : option Z;
  st_errorMessage : option string;
  st_hasResultSet : option bool;
}.

Record TCancelOperationResp : Set := { ca_status : TStatus }.
Record TCloseOperationResp : Set := { co_status : TStatus }.

(** ** What a JavaScript [throw] carries *)

Inductive exn : Set :=
| Error (msg : string)            (* new Error(msg) *)
| TypeError                       (* a property read on undefined *)
| NotImplementedError             (* 'RestDriver: Method not implemented' *)
| Rejected (reason : string).     (* the REST client's promise was rejected *)

(** ** Enumeration translation *)

Definition restOperationStateToThriftOperationState
    (state : StatementState.t) : TOperationState.t :=
  match state with
  | StatementState.Canceled => TOperationState.CANCELED_STATE
  | StatementState.Closed => TOperationState.CLOSED_STATE
  | StatementState.Failed => TOperationState.ERROR_STATE
  | StatementState.Pending => TOperationState.PENDING_STATE
  | StatementState.Running => TOperationState.RUNNING_STATE
  | StatementState.Succeeded => TOperationState.FINISHED_STATE
  | _ => TOperationState.UKNOWN_STATE
  end.

Definition restTypeNameToThriftTypeId
    (typeName : ColumnInfoTypeName.t) : TTypeId.t :=
  match typeName with
  | ColumnInfoTypeName.Array => TTypeId.ARRAY_TYPE
  | ColumnInfoTypeName.Binary => TTypeId.BINARY_TYPE
  | ColumnInfoTypeName.Boolean => TTypeId.BOOLEAN_TYPE
  | ColumnInfoTypeName.Byte => TTypeId.TINYINT_TYPE
  | ColumnInfoTypeName.Char => TTypeId.CHAR_TYPE
  | ColumnInfoTypeName.Date => TTypeId.DATE_TYPE
  | ColumnInfoTypeName.Decimal => TTypeId.DECIMAL_TYPE
  | ColumnInfoTypeName.Double => TTypeId.DOUBLE_TYPE
  | ColumnInfoTypeName.Float => TTypeId.FLOAT_TYPE
  | ColumnInfoTypeName.Int => TTypeId.INT_TYPE
  | ColumnInfoTypeName.Interval => TTypeId.INTERVAL_DAY_TIME_TYPE
  | ColumnInfoTypeName.Long => TTypeId.INT_TYPE
  | ColumnInfoTypeName.Map => TTypeId.MAP_TYPE
  | ColumnInfoTypeName.Null => TTypeId.NULL_TYPE
  | ColumnInfoTypeName.Short => TTypeId.SMALLINT_TYPE
  | ColumnInfoTypeName.String => TTypeId.STRING_TYPE
  | ColumnInfoTypeName.Struct => TTypeId.STRUCT_TYPE
  | ColumnInfoTypeName.Timestamp => TTypeId.TIMESTAMP_TYPE
  | ColumnInfoTypeName.UserDefinedType => TTypeId.USER_DEFINED_TYPE
  | _ => TTypeId.NULL_TYPE
  end.

(** ** Row-major to column-major conversion *)

(** [column.stringVal?.values.push(cell)]: nothing happens when the column has
    no [stringVal]. *)
Definition push (cell : string) (column : TColumn) : TColumn :=
  {| stringVal :=
       (λ sv, {| values := values sv ++ [cell]; nulls := nulls sv |})
         <$> stringVal column |}.

(** The inner [for] loop, from index [i] on, over the cells still to visit.
    [columns[i]] is read without a bounds check: past the end it is
    [undefined], and reading [.stringVal] of it throws. *)
Fixpoint pushRow (i : nat) (row : list string) (columns : list TColumn)
    : exn + list TColumn :=
  match row with
  | [] => inr columns
  | cell :: rest =>
      match columns !! i with
      | None => inl TypeError
      | Some column => pushRow (S i) rest (<[i := push cell column]> columns)
      end
  end.

(** [data_array.forEach(row => ...)]; a throw inside the callback ends it. *)
Fixpoint forEachRow (data : list (list string)) (columns : list TColumn)
    : exn + list TColumn :=
  match data with
  | [] => inr columns
  | row :: rest =>
      match pushRow 0 row columns with
      | inl e => inl e
      | inr columns' => forEachRow rest columns'
      end
  end.

Definition emptyColumn : TColumn :=
  {| stringVal := Some {| values := []; nulls := Buffer_alloc 0 |} |}.

Definition restJsonResultToThriftColumnar
    (schema : ResultSchema) (result : ResultData) : exn + TRowSet :=
  let columns0 := (λ _, emptyColumn) <$> columns schema in
  let filled :=
    match data_array result with
    | Some data => forEachRow data columns0
    | None => inr columns0
    end in
  match filled with
  | inl e => inl e
  | inr cols =>
      inr {| startRowOffset := 0;
             rows := [];
             rs_columns := cols;
             columnCount := length cols |}
  end.

(** ** The REST client and programs that call it *)

(** The four asynchronous methods of [RestClient] the driver calls. *)
Inductive RemoteCall : Set :=
| executeStatementCall (req : ExecuteStatementRequest)
| getStatementCall (statement_id : string)
| getStatementResultChunkNCall (statement_id : string) (chunk_index : option Z)
| cancelExecutionCall (statement_id : string).

(** What each of them resolves to.  The driver tests the chunk it gets back
    for [undefined], so a chunk request may resolve to nothing. *)
Definition Reply (c : RemoteCall) : Set :=
  match c with
  | executeStatementCall _ => ExecuteStatementResponse
  | getStatementCall _ => GetStatementResponse
  | getStatementResultChunkNCall _ _ => option ResultData
  | cancelExecutionCall _ => unit
  end.

(** A program either is done, or awaits a remote call and goes on with what
    the promise settles to: a rejection or a reply. *)
Inductive Prog (A : Type) : Type :=
| Ret (a : A)
| Call (c : RemoteCall) (k : exn + Reply c → Prog A).
Arguments Ret {A} a.
Arguments Call {A} c k.

Fixpoint progBind {A B : Type} (p : Prog A) (f : A → Prog B) : Prog B :=
  match p with
  | Ret a => f a
  | Call c k => Call c (λ r, progBind (k r) f)
  end.

(** The synchronous part of the client: its configured warehouse. *)
Record RestClient : Set := { getWarehouseId : string }.

(** The driver object. *)
Record RestDriver : Set := {
  client : RestClient;
  session : option TOpenSessionReq;
  currentStatement : option ExecuteStatementResponse;
  currentResultChunk : option ResultData;
}.

Definition newRestDriver (client : RestClient) : RestDriver :=
  {| client := client;
     session := None;
     currentStatement := None;
     currentResultChunk := None |}.

Definition set_session (v : option TOpenSessionReq) (this : RestDriver)
    : RestDriver :=
  {| client := client this;
     session := v;
     currentStatement := currentStatement this;
     currentResultChunk := currentResultChunk this |}.

Definition set_currentStatement (v : option ExecuteStatementResponse)
    (this : RestDriver) : RestDriver :=
  {| client := client this;
     session := session this;
     currentStatement := v;
     currentResultChunk := currentResultChunk this |}.

Definition set_currentResultChunk (v : option ResultData) (this : RestDriver)
    : RestDriver :=
  {| client := client this;
     session := session this;
     currentStatement := currentStatement this;
     currentResultChunk := v |}.

(** How a method body ends. *)
Inductive Completion (A : Type) : Type :=
| Returned (a : A)
| Threw (e : exn).
Arguments Returned {A} a.
Arguments Threw {A} e.

(** A method body: reads and writes the driver, may call the client, and
    either returns or throws; the driver as left behind is part of the
    outcome in both cases. *)
Definition M (A : Type) : Type := RestDriver → Prog (Completion A * RestDriver).

Definition ret {A} (a : A) : M A := λ this, Ret (Returned a, this).

Definition throw {A} (e : exn) : M A := λ this, Ret (Threw e, this).

Definition bind {A B} (m : M A) (f : A → M B) : M B :=
  λ this,
    progBind (m this)
      (λ out,
         match out with
         | (Returned a, this') => f a this'
         | (Threw e, this') => Ret (Threw e, this')
         end).

Definition get : M RestDriver := λ this, Ret (Returned this, this).

Definition modify (f : RestDriver → RestDriver) : M unit :=
  λ this, Ret (Returned tt, f this).

(** [await this.client.method(...)]: a rejection is rethrown at the await. *)
Definition await (c : RemoteCall) : M (Reply c) :=
  λ this,
    Call c (λ r,
      match r with
      | inl e => Ret (Threw e, this)
      | inr v => Ret (Returned v, this)
      end).

(** The client's methods, as the driver sees them. *)
Definition client_executeStatement (req : ExecuteStatementRequest)
    : M ExecuteStatementResponse :=
  await (executeStatementCall req).

Definition client_getStatement (statement_id : string)
    : M GetStatementResponse :=
  await (getStatementCall statement_id).

Definition client_getStatementResultChunkN (statement_id : string)
    (chunk_index : option Z) : M (option ResultData) :=
  await (getStatementResultChunkNCall statement_id chunk_index).

Definition client_cancelExecution (statement_id : string) : M unit :=
  await (cancelExecutionCall statement_id).

(** A synchronous computation that may throw. *)
Definition liftThrow {A} (r : exn + A) : M A :=
  match r with
  | inl e => throw e
  | inr a => ret a
  end.

Declare Scope driver_scope.
Delimit Scope driver_scope with driver.
Notation "'let!' x ':=' m 'in' k" := (bind m (λ x, k))
  (at level 10, x name, m at level 200, k at level 200) : driver_scope.
Notation "m ';;;' k" := (bind m (λ _ : unit, k))
  (at level 100, k at level 200, right associativity) : driver_scope.
Local Open Scope driver_scope.

(** ** The driver's methods *)

Definition isDefined {A} (v : option A) : bool :=
  match v with Some _ => true | None => false end.

Definition SUCCESS : TStatus :=
  {| statusCode := TStatusCode.SUCCESS_STATUS; errorMessage := None |}.

Definition ERROR (msg : string) : TStatus :=
  {| statusCode := TStatusCode.ERROR_STATUS; errorMessage := Some msg |}.

Definition emptyHandleIdentifier : THandleIdentifier :=
  {| guid := Buffer_alloc 16; secret := Buffer_alloc 0 |}.

Definition processStatementStatus (status : StatementStatus) : M unit :=
  match state status with
  | StatementState.Canceled
  | StatementState.Closed => modify (set_currentStatement None)
  | StatementState.Failed =>
      match error status with
      | Some err => throw (Error (error_code err +:+ ": " +:+ message err))
      | None => throw TypeError
      end
  | _ => ret tt
  end.

(** [request.client_protocol || SPARK_CLI_SERVICE_PROTOCOL_V6]: the left
    operand is used unless it is falsy, that is absent or the number zero. *)
Definition orDefault (v : option TProtocolVersion.t) (d : TProtocolVersion.t)
    : TProtocolVersion.t :=
  match v with
  | Some n => if Z.eqb n 0 then d else n
  | None => d
  end.

Definition openSession (request : TOpenSessionReq) : M TOpenSessionResp :=
  modify (set_session (Some request));;;
  ret {| os_status := SUCCESS;
         serverProtocolVersion :=
           orDefault (client_protocol request)
             TProtocolVersion.SPARK_CLI_SERVICE_PROTOCOL_V6;
         sessionHandle := Some {| sessionId := emptyHandleIdentifier |} |}.

Definition closeSession (request : TCloseSessionReq) : M TCloseSessionResp :=
  modify (set_session None);;;
  ret {| cs_status := SUCCESS |}.

Definition executeStatement (request : TExecuteStatementReq)
    : M TExecuteStatementResp :=
  let! this := get in
  let! response :=
    client_executeStatement
      {| rq_catalog := (session this ≫= initialNamespace) ≫= catalogName;
         rq_schema := (session this ≫= initialNamespace) ≫= schemaName;
         rq_disposition := Disposition.Inline;
         rq_format := Format.JsonArray;
         rq_on_wait_timeout := TimeoutAction.Continue;
         rq_wait_timeout := "5s";
         rq_warehouse_id := getWarehouseId (client this);
         rq_statement := statement request |} in
  modify (set_currentStatement (Some response));;;
  processStatementStatus (status response);;;
  let! this := get in
  match currentStatement this with
  | None =>
      ret {| es_status :=
               {| statusCode := TStatusCode.INVALID_HANDLE_STATUS;
                  errorMessage := None |};
             operationHandle := None |}
  | Some stmt =>
      ret {| es_status := SUCCESS;
             operationHandle :=
               Some {| operationId := emptyHandleIdentifier;
                       operationType := TOperationType.EXECUTE_STATEMENT;
                       hasResultSet :=
                         isDefined (result stmt ≫= chunk_index) |} |}
  end.

(** Numbers.  [column.position] is a JavaScript number, an IEEE-754 double,
    that holds an integer; such a number is modelled by the integer it
    holds.  [round53] rounds an integer to the nearest double, that is to 53
    significant bits, a tie going to the even significand. *)
Definition round53 (z : Z) : Z :=
  let a := Z.abs z in
  let e := Z.log2 a - 52 in
  if e <=? 0 then z
  else
    let q := a / 2 ^ e in
    let r := a mod 2 ^ e in
    let half := 2 ^ (e - 1) in
    let q' :=
      if r <? half then q
      else if half <? r then q + 1
      else if Z.even q then q else q + 1 in
    Z.sgn z * (q' * 2 ^ e).

(** [a + b] on two such numbers: the exact sum, rounded.  (A sum rounds to
    infinity only from 2^1024 - 2^970 on, which [position + 1] cannot
    reach.) *)
Definition numberAdd (a b : Z) : Z := round53 (a + b).

Definition toColumnDesc (column : ColumnInfo) : TColumnDesc :=
  {| columnName := name column;
     cd_position := numberAdd (position column) 1;
     typeDesc :=
       {| types :=
            [ {| primitiveEntry :=
                   {| type := restTypeNameToThriftTypeId (type_name column) |}
              |} ] |} |}.

Definition getResultSetMetadata (request : TGetResultSetMetadataReq)
    : M TGetResultSetMetadataResp :=
  let! this := get in
  match currentStatement this with
  | None =>
      ret {| md_status := ERROR "Invalid handle";
             resultFormat := None;
             md_schema := None |}
  | Some stmt =>
      let columns :=
        match manifest stmt ≫= schema with
        | Some sch => toColumnDesc <$> columns sch
        | None => []
        end in
      ret {| md_status := SUCCESS;
             resultFormat := Some TSparkRowSetType.COLUMN_BASED_SET;
             md_schema := Some {| ts_columns := columns |} |}
  end.

Definition noSchema : ResultSchema := {| column_count := 0; columns := [] |}.

Definition fetchResults (request : TFetchResultsReq) : M TFetchResultsResp :=
  let! this := get in
  match currentStatement this with
  | None =>
      ret {| fr_status := ERROR "Invalid handle";
             hasMoreRows := None;
             results := None |}
  | Some stmt =>
      match currentResultChunk this with
      | None => modify (set_currentResultChunk (result stmt))
      | Some previous =>
          let! chunk :=
            client_getStatementResultChunkN
              (statement_id stmt) (next_chunk_index previous) in
          modify (set_currentResultChunk chunk)
      end;;;
      let! this := get in
      match currentResultChunk this with
      | None =>
          ret {| fr_status := ERROR "No more data";
                 hasMoreRows := None;
                 results := None |}
      | Some chunk =>
          let schema := default noSchema (manifest stmt ≫= schema) in
          let! rowSet :=
            liftThrow (restJsonResultToThriftColumnar schema chunk) in
          ret {| fr_status := SUCCESS;
                 hasMoreRows := Some (isDefined (next_chunk_index chunk));
                 results := Some rowSet |}
      end
  end.

(** How a template literal prints [error?.error_code] and [error?.message]. *)
Definition printed (field : ServiceError → string) (err : option ServiceError)
    : string :=
  match err with
  | Some e => field e
  | None => "undefined"
  end.

(** [this.currentStatement.status = ...] and the two assignments after it. *)
Definition refresh (response : GetStatementResponse)
    (stmt : ExecuteStatementResponse) : ExecuteStatementResponse :=
  {| statement_id := statement_id stmt;
     status := gs_status response;
     manifest := gs_manifest response;
     result := gs_result response |}.

(** The [console.log] of the response touches neither the driver nor the
    client and is left out. *)
Definition getOperationStatus (request : TGetOperationStatusReq)
    : M TGetOperationStatusResp :=
  let! this := get in
  match currentStatement this with
  | Some stmt =>
      if isDefined (manifest stmt) then ret tt
      else
        let! response := client_getStatement (statement_id stmt) in
        modify (set_currentStatement (Some (refresh response stmt)));;;
        processStatementStatus (gs_status response)
  | None => ret tt
  end;;;
  let! this := get in
  match currentStatement this with
  | None =>
      ret {| st_status := ERROR "Invalid handle";
             operationState := None;
             errorCode := None;
             st_errorMessage := None;
             st_hasResultSet := None |}
  | Some stmt =>
      ret {| st_status := SUCCESS;
             operationState :=
               Some (restOperationStateToThriftOperationState
                       (state (status stmt)));
             errorCode := Some 0;
             st_errorMessage :=
               Some (printed error_code (error (status stmt)) +:+ ": "
                     +:+ printed message (error (status stmt)));
             st_hasResultSet := Some (isDefined (result stmt)) |}
  end.

Definition cancelOperation (request : TCancelOperationReq)
    : M TCancelOperationResp :=
  let! this := get in
  match currentStatement this with
  | Some stmt =>
      client_cancelExecution (statement_id stmt);;;
      modify (set_currentStatement None)
  | None => ret tt
  end;;;
  ret {| ca_status := SUCCESS |}.

Definition closeOperation (request : TCloseOperationReq)
    : M TCloseOperationResp :=
  modify (set_currentStatement None);;;
  ret {| co_status := SUCCESS |}.

(** [getInfo], [getTypeInfo], [getCatalogs], [getSchemas], [getTables],
    [getTableTypes], [getColumns], [getFunctions], [getPrimaryKeys],
    [getCrossReference] and the three delegation-token methods all have this
    body. *)
Definition notImplemented {A} : M A := throw NotImplementedError.

(** ** Running a program against a remote service *)

(** A remote service answers a call knowing the calls made before it. *)
Definition Remote : Type := list RemoteCall → ∀ c : RemoteCall, exn + Reply c.

(** Runs a program; the calls it makes are appended to [log]. *)
Fixpoint run {A} (remote : Remote) (log : list RemoteCall) (p : Prog A)
    : A * list RemoteCall :=
  match p with
  | Ret a => (a, log)
  | Call c k => run remote (log ++ [c]) (k (remote log c))
  end.

(** A method invoked on a driver: how it completes, the driver it leaves, the
    log of remote calls. *)
Definition invoke {A} (remote : Remote) (log : list RemoteCall) (m : M A)
    (this : RestDriver) : Completion A * RestDriver * list RemoteCall :=
  run remote log (m this).

Definition completion {A} (o : Completion A * RestDriver * list RemoteCall)
    : Completion A := o.1.1.
Definition driverAfter {A} (o : Completion A * RestDriver * list RemoteCall)
    : RestDriver := o.1.2.
Definition logAfter {A} (o : Completion A * RestDriver * list RemoteCall)
    : list RemoteCall := o.2.

(** [n] calls of [getOperationStatus] in a row, as a caller polling does; the
    caller stops at the first one that throws. *)
Fixpoint poll (n : nat) (request : TGetOperationStatusReq) : M unit :=
  match n with
  | O => ret tt
  | S n' =>
      let! _r := getOperationStatus request in
      poll n' request
  end.

(** [needle] occurs in [hay]. *)
Definition includes (hay needle : string) : Prop :=
  ∃ pre post : string, hay = pre +:+ needle +:+ post.

(** The cells of a chunk, row by row; none when [data_array] is absent. *)
Definition rowsOf (chunk : ResultData) : list (list string) :=
  default [] (data_array chunk).

(** A string-valued column holding [cells]. *)
Definition stringColumn (cells : list string) : TColumn :=
  {| stringVal := Some {| values := cells; nulls := Buffer_alloc 0 |} |}.

(** The request [executeStatement] sends for [request] on driver [this]. *)
Definition executeRequest (this : RestDriver) (request : TExecuteStatementReq)
    : ExecuteStatementRequest :=
  {| rq_catalog := (session this ≫= initialNamespace) ≫= catalogName;
     rq_schema := (session this ≫= initialNamespace) ≫= schemaName;
     rq_disposition := Disposition.Inline;
     rq_format := Format.JsonArray;
     rq_on_wait_timeout := TimeoutAction.Continue;
     rq_wait_timeout := "5s";
     rq_warehouse_id := getWarehouseId (client this);
     rq_statement := statement request |}.

(** The two error-status responses of [fetchResults], and the way it completes
    once it holds a chunk. *)
Definition fetchError (msg : string) : TFetchResultsResp :=
  {| fr_status := ERROR msg; hasMoreRows := None; results := None |}.

Definition fetched (schema : ResultSchema) (chunk : ResultData)
    : Completion TFetchResultsResp :=
  match restJsonResultToThriftColumnar schema chunk with
  | inl e => Threw e
  | inr rowSet =>
      Returned {| fr_status := SUCCESS;
                  hasMoreRows := Some (isDefined (next_chunk_index chunk));
                  results := Some rowSet |}
  end.

(** What [getOperationStatus] answers once it has refreshed the driver. *)
Definition statusResponse (this : RestDriver) : TGetOperationStatusResp :=
  match currentStatement this with
  | None =>
      {| st_status := ERROR "Invalid handle";
         operationState := None;
         errorCode := None;
         st_errorMessage := None;
         st_hasResultSet := None |}
  | Some stmt =>
      {| st_status := SUCCESS;
         operationState :=
           Some (restOperationStateToThriftOperationState
                   (state (status stmt)));
         errorCode := Some 0;
         st_errorMessage :=
           Some (printed error_code (error (status stmt)) +:+ ": "
                 +:+ printed message (error (status stmt)));
         st_hasResultSet := Some (isDefined (result stmt)) |}
  end.

(** The schema [fetchResults] converts with. *)
Definition schemaOf (stmt : ExecuteStatementResponse) : ResultSchema :=
  default noSchema (manifest stmt ≫= schema).

(** [fetchResults] once the chunk to return has been chosen. *)
Definition afterSelect (stmt : ExecuteStatementResponse)
    (chunk : option ResultData) (this : RestDriver) (log : list RemoteCall)
    : Completion TFetchResultsResp * RestDriver * list RemoteCall :=
  match chunk with
  | None =>
      (Returned (fetchError "No more data"),
       set_currentResultChunk None this, log)
  | Some c =>
      (fetched (schemaOf stmt) c, set_currentResultChunk (Some c) this, log)
  end.

(** ** Scenarios *)

(** A remote service that always gives the same answers. *)
Definition scriptedRemote (executed : ExecuteStatementResponse)
    (polled : GetStatementResponse) (chunk : option ResultData) : Remote :=
  λ _ c,
    match c return exn + Reply c with
    | executeStatementCall _ => inr executed
    | getStatementCall _ => inr polled
    | getStatementResultChunkNCall _ _ => inr chunk
    | cancelExecutionCall _ => inr tt
    end.

Definition aClient : RestClient := {| getWarehouseId := "w1" |}.

Definition aHandle : TOperationHandle :=
  {| operationId := emptyHandleIdentifier;
     operationType := TOperationType.EXECUTE_STATEMENT;
     hasResultSet := true |}.

Definition syntaxError : StatementStatus :=
  {| state := StatementState.Failed;
     error := Some {| error_code := "42"; message := "syntax error" |} |}.

Definition okStatus (s : StatementState.t) : StatementStatus :=
  {| state := s; error := None |}.

Definition twoColumns : ResultSchema :=
  {| column_count := 2;
     columns :=
       [ {| name := "id"; position := 0;
            type_name := ColumnInfoTypeName.Long |};
         {| name := "label"; position := 1;
            type_name := ColumnInfoTypeName.String |} ] |}.

Definition twoRows : ResultData :=
  {| chunk_index := Some 0;
     next_chunk_index := Some 1;
     data_array := Some [ ["1"; "a"]; ["2"; "b"] ] |}.

Definition succeeded : ExecuteStatementResponse :=
  {| statement_id := "st-1";
     status := okStatus StatementState.Succeeded;
     manifest := Some {| schema := Some twoColumns |};
     result := Some twoRows |}.

Definition pending : ExecuteStatementResponse :=
  {| statement_id := "st-1";
     status := okStatus StatementState.Pending;
     manifest := None;
     result := None |}.

Definition failed : ExecuteStatementResponse :=
  {| statement_id := "st-1";
     status := syntaxError;
     manifest := None;
     result := None |}.

Definition stillPending : GetStatementResponse :=
  {| gs_status := okStatus StatementState.Pending;
     gs_manifest := None;
     gs_result := None |}.

Definition nowFailed : GetStatementResponse :=
  {| gs_status := syntaxError; gs_manifest := None; gs_result := None |}.

Definition tracking (stmt : ExecuteStatementResponse) : RestDriver :=
  set_currentStatement (Some stmt) (newRestDriver aClient).

Definition wideRows : ResultData :=
  {| chunk_index := Some 0;
     next_chunk_index := None;
     data_array := Some [ ["1"; "a"; "extra"] ] |}.

Definition wide : ExecuteStatementResponse :=
  {| statement_id := "st-3";
     status := okStatus StatementState.Succeeded;
     manifest := Some {| schema := Some twoColumns |};
     result := Some wideRows |}.

Definition noRows : ResultData :=
  {| chunk_index := Some 0;
     next_chunk_index := None;
     data_array := Some [] |}.

Definition withoutSchema : ExecuteStatementResponse :=
  {| statement_id := "st-2";
     status := okStatus StatementState.Succeeded;
     manifest := None;
     result := Some noRows |}.

Definition freshRows : ResultData :=
  {| chunk_index := Some 0;
     next_chunk_index := None;
     data_array := Some [ ["9"; "z"] ] |}.

Definition second : ExecuteStatementResponse :=
  {| statement_id := "st-9";
     status := okStatus StatementState.Succeeded;
     manifest := Some {| schema := Some twoColumns |};
     result := Some freshRows |}.

(** A remote service that runs "SELECT 2" as statement st-9 and anything
    else as statement st-1, and has no further chunks to hand out. *)
Definition twoStatements : Remote :=
  λ _ c,
    match c return exn + Reply c with
    | executeStatementCall req =>
        inr (if String.eqb (rq_statement req) "SELECT 2"
             then second else succeeded)
    | getStatementCall _ => inr stillPending
    | getStatementResultChunkNCall _ _ => inr None
    | cancelExecutionCall _ => inr tt
    end.

(** Run a statement and read its first chunk; close it; run another
    statement and read its first chunk. *)
Definition oneAfterTheOther : M TFetchResultsResp :=
  let! _executed := executeStatement {| statement := "SELECT 1" |} in
  let! _fetched := fetchResults {| fr_operationHandle := aHandle |} in
  let! _closed := closeOperation {| co_operationHandle := aHandle |} in
  let! _executed := executeStatement {| statement := "SELECT 2" |} in
  fetchResults {| fr_operationHandle := aHandle |}.

(** ** Any sequence of calls *)

(** [try { await m } catch (e) { ... }]: a caller that goes on after a call
    has thrown. *)
Definition attempt {A} (m : M A) : M (Completion A) :=
  λ this, progBind (m this) (λ out, Ret (Returned out.1, out.2)).

(** The calls a user of the driver can make; the thirteen methods without a
    REST counterpart share one body and stand as [callUnsupported]. *)
Inductive DriverCall : Set :=
| callOpenSession (request : TOpenSessionReq)
| callCloseSession (request : TCloseSessionReq)
| callExecuteStatement (request : TExecuteStatementReq)
| callGetResultSetMetadata (request : TGetResultSetMetadataReq)
| callFetchResults (request : TFetchResultsReq)
| callGetOperationStatus (request : TGetOperationStatusReq)
| callCancelOperation (request : TCancelOperationReq)
| callCloseOperation (request : TCloseOperationReq)
| callUnsupported.

Definition discard {A} (m : M A) : M unit :=
  let! _c := attempt m in ret tt.

(** Makes the call and drops what it returned or threw. *)
Definition perform (call : DriverCall) : M unit :=
  match call with
  | callOpenSession request => discard (openSession request)
  | callCloseSession request => discard (closeSession request)
  | callExecuteStatement request => discard (executeStatement request)
  | callGetResultSetMetadata request => discard (getResultSetMetadata request)
  | callFetchResults request => discard (fetchResults request)
  | callGetOperationStatus request => discard (getOperationStatus request)
  | callCancelOperation request => discard (cancelOperation request)
  | callCloseOperation request => discard (closeOperation request)
  | callUnsupported => discard (@notImplemented unit)
  end.

Fixpoint performAll (calls : list DriverCall) : M unit :=
  match calls with
  | [] => ret tt
  | call :: rest => perform call;;; performAll rest
  end.

(** The tracked statement, if any, is neither canceled nor closed. *)
Definition tracksLive (this : RestDriver) : Prop :=
  ∀ stmt,
    currentStatement this = Some stmt →
    state (status stmt) ≠ StatementState.Canceled
    ∧ state (status stmt) ≠ StatementState.Closed.

(** What one row adds to the accumulators it reaches: its [j]-th cell goes
    to the [j]-th of them, the accumulators past its end stay as they are. *)
Fixpoint pushCells (row : list string) (vss : list (list string))
    : list (list string) :=
  match row, vss with
  | cell :: rest, vs :: vss' => (vs ++ [cell]) :: pushCells rest vss'
  | _, _ => vss
  end.

(** ** [DBSQLOperation/CompleteOperationHelper]

    The helper is written against [HiveDriver] and the [Status] class of
    [lib/dto], neither of which is among the sources.  Both are taken as
    parameters: the driver as the two methods the helper calls, which
    [RestDriver] offers under the same names, and [Status] as its
    constructor, [Status.success()] and [Status.assert], the latter being
    told by what it throws, if anything. *)
Record StatusClass : Type := {
  Status : Type;
  Status_new : TStatus → Status;
  Status_success : Status;
  Status_assert : TStatus → option exn;
}.

Record OperationDriver : Type := {
  driver_cancelOperation : TCancelOperationReq → M TCancelOperationResp;
  driver_closeOperation : TCloseOperationReq → M TCloseOperationResp;
}.

Definition restOperationDriver : OperationDriver :=
  {| driver_cancelOperation := cancelOperation;
     driver_closeOperation := closeOperation |}.

Record CompleteOperationHelper : Type := {
  helper_driver : OperationDriver;
  helper_operationHandle : TOperationHandle;
  closed : bool;
  cancelled : bool;
}.

Definition set_closed (v : bool) (h : CompleteOperationHelper)
    : CompleteOperationHelper :=
  {| helper_driver := helper_driver h;
     helper_operationHandle := helper_operationHandle h;
     closed := v;
     cancelled := cancelled h |}.

Definition set_cancelled (v : bool) (h : CompleteOperationHelper)
    : CompleteOperationHelper :=
  {| helper_driver := helper_driver h;
     helper_operationHandle := helper_operationHandle h;
     closed := closed h;
     cancelled := v |}.

(** [Status.assert(status)] as a statement. *)
Definition assertStatus (S : StatusClass) (status : TStatus) : M unit :=
  match Status_assert S status with
  | Some e => throw e
  | None => ret tt
  end.

(** The constructor; it throws when handed a close response that
    [Status.assert] rejects. *)
Definition newCompleteOperationHelper (S : StatusClass)
    (driver : OperationDriver) (operationHandle : TOperationHandle)
    (closeOperation : option TCloseOperationResp)
    : exn + CompleteOperationHelper :=
  let h := {| helper_driver := driver;
              helper_operationHandle := operationHandle;
              closed := false;
              cancelled := false |} in
  match closeOperation with
  | Some response =>
      match Status_assert S (co_status response) with
      | Some e => inl e
      | None => inr (set_closed true h)
      end
  | None => inr h
  end.

(** [cancel] and [close] return the status together with the helper as they
    leave it; they write a flag only after the last statement that can
    throw, so when they throw the helper is the one they were called on. *)
Definition helper_cancel (S : StatusClass) (h : CompleteOperationHelper)
    : M (Status S * CompleteOperationHelper) :=
  if cancelled h then ret (Status_success S, h)
  else
    let! response :=
      driver_cancelOperation (helper_driver h)
        {| ca_operationHandle := helper_operationHandle h |} in
    assertStatus S (ca_status response);;;
    ret (Status_new S (ca_status response), set_cancelled true h).

Definition helper_close (S : StatusClass) (h : CompleteOperationHelper)
    : M (Status S * CompleteOperationHelper) :=
  if closed h then ret (Status_success S, h)
  else
    let! response :=
      driver_closeOperation (helper_driver h)
        {| co_operationHandle := helper_operationHandle h |} in
    assertStatus S (co_status response);;;
    ret (Status_new S (co_status response), set_closed true h).

(** A [Status] class that keeps the Thrift status and rejects the two error
    codes. *)
Definition plainStatus : StatusClass :=
  {| Status := TStatus;
     Status_new := λ status, status;
     Status_success := SUCCESS;
     Status_assert := λ status,
       match statusCode status with
       | TStatusCode.ERROR_STATUS
       | TStatusCode.INVALID_HANDLE_STATUS =>
           Some (Error (default "" (errorMessage status)))
       | _ => None
       end |}.

Definition aNamespace : TOpenSessionReq :=
  {| client_protocol := Some TProtocolVersion.SPARK_CLI_SERVICE_PROTOCOL_V6;
     initialNamespace :=
       Some {| catalogName := Some "c1"; schemaName := Some "s1" |} |}.

Definition aSessionHandle : TSessionHandle :=
  {| sessionId := emptyHandleIdentifier |}.

(** A statement whose result came without a chunk index. *)
Definition unindexed : ExecuteStatementResponse :=
  {| statement_id := "st-4";
     status := okStatus StatementState.Succeeded;
     manifest := Some {| schema := Some twoColumns |};
     result :=
       Some {| chunk_index := None;
               next_chunk_index := None;
               data_array := Some [ ["1"; "a"] ] |} |}.

Definition resolved : GetStatementResponse :=
  {| gs_status := okStatus StatementState.Succeeded;
     gs_manifest := Some {| schema := Some twoColumns |};
     gs_result := Some twoRows |}.

Definition raggedRows : ResultData :=
  {| chunk_index := Some 0;
     next_chunk_index := None;
     data_array := Some [ ["1"; "a"]; ["2"]; []; ["4"; "d"] ] |}.

Definition someCalls : list DriverCall :=
  [ callExecuteStatement {| statement := "SELECT 1" |};
    callFetchResults {| fr_operationHandle := aHandle |};
    callUnsupported;
    callCancelOperation {| ca_operationHandle := aHandle |};
    callGetOperationStatus {| st_operationHandle := aHandle |};
    callExecuteStatement {| statement := "SELECT 1" |} ].

Definition aHelper : CompleteOperationHelper :=
  {| helper_driver := restOperationDriver;
     helper_operationHandle := aHandle;
     closed := false;
     cancelled := false |}.

(** A manifest whose only column sits at position 2^53. *)
Definition farColumns : ResultSchema :=
  {| column_count := 1;
     columns :=
       [ {| name := "far"; position := 9007199254740992;
            type_name := ColumnInfoTypeName.Int |} ] |}.

Definition far : ExecuteStatementResponse :=
  {| statement_id := "st-5";
     status := okStatus StatementState.Succeeded;
     manifest := Some {| schema := Some farColumns |};
     result := None |}.

(** * Properties *)

(** ** Enumeration translation *)

(** C5: the state mapping is a total function; it sends Canceled to CANCELED,
    Closed to CLOSED, Failed to ERROR, Pending to PENDING, Running to RUNNING,
    Succeeded to FINISHED, and every other state to the unknown state. *)
Theorem restOperationStateToThriftOperationState_table :
  restOperationStateToThriftOperationState StatementState.Canceled
    = TOperationState.CANCELED_STATE
  ∧ restOperationStateToThriftOperationState StatementState.Closed
    = TOperationState.CLOSED_STATE
  ∧ restOperationStateToThriftOperationState StatementState.Failed
    = TOperationState.ERROR_STATE
  ∧ restOperationStateToThriftOperationState StatementState.Pending
    = TOperationState.PENDING_STATE
  ∧ restOperationStateToThriftOperationState StatementState.Running
    = TOperationState.RUNNING_STATE
  ∧ restOperationStateToThriftOperationState StatementState.Succeeded
    = TOperationState.FINISHED_STATE
  ∧ (∀ raw : string,
       restOperationStateToThriftOperationState
         (StatementState.Unrecognized raw)
       = TOperationState.UKNOWN_STATE)
  ∧ (∀ s : StatementState.t,
       ∃ t : TOperationState.t,
         restOperationStateToThriftOperationState s = t).
Proof.
  repeat split; try reflexivity.
  intros s. by eexists.
Qed.

(** C6: the type mapping is a total function; it is one-to-one on array,
    binary, boolean, char, date, decimal, double, float, int, map, null,
    string, struct, timestamp and user-defined types, sends byte to tinyint,
    long to int, short to smallint and interval to interval-day-time, and
    sends every unrecognized name to the null type. *)
Theorem restTypeNameToThriftTypeId_table :
  restTypeNameToThriftTypeId ColumnInfoTypeName.Array = TTypeId.ARRAY_TYPE
  ∧ restTypeNameToThriftTypeId ColumnInfoTypeName.Binary = TTypeId.BINARY_TYPE
  ∧ restTypeNameToThriftTypeId ColumnInfoTypeName.Boolean
    = TTypeId.BOOLEAN_TYPE
  ∧ restTypeNameToThriftTypeId ColumnInfoTypeName.Char = TTypeId.CHAR_TYPE
  ∧ restTypeNameToThriftTypeId ColumnInfoTypeName.Date = TTypeId.DATE_TYPE
  ∧ restTypeNameToThriftTypeId ColumnInfoTypeName.Decimal
    = TTypeId.DECIMAL_TYPE
  ∧ restTypeNameToThriftTypeId ColumnInfoTypeName.Double = TTypeId.DOUBLE_TYPE
  ∧ restTypeNameToThriftTypeId ColumnInfoTypeName.Float = TTypeId.FLOAT_TYPE
  ∧ restTypeNameToThriftTypeId ColumnInfoTypeName.Int = TTypeId.INT_TYPE
  ∧ restTypeNameToThriftTypeId ColumnInfoTypeName.Map = TTypeId.MAP_TYPE
  ∧ restTypeNameToThriftTypeId ColumnInfoTypeName.Null = TTypeId.NULL_TYPE
  ∧ restTypeNameToThriftTypeId ColumnInfoTypeName.String = TTypeId.STRING_TYPE
  ∧ restTypeNameToThriftTypeId ColumnInfoTypeName.Struct = TTypeId.STRUCT_TYPE
  ∧ restTypeNameToThriftTypeId ColumnInfoTypeName.Timestamp
    = TTypeId.TIMESTAMP_TYPE
  ∧ restTypeNameToThriftTypeId ColumnInfoTypeName.UserDefinedType
    = TTypeId.USER_DEFINED_TYPE
  ∧ restTypeNameToThriftTypeId ColumnInfoTypeName.Byte = TTypeId.TINYINT_TYPE
  ∧ restTypeNameToThriftTypeId ColumnInfoTypeName.Long = TTypeId.INT_TYPE
  ∧ restTypeNameToThriftTypeId ColumnInfoTypeName.Short
    = TTypeId.SMALLINT_TYPE
  ∧ restTypeNameToThriftTypeId ColumnInfoTypeName.Interval
    = TTypeId.INTERVAL_DAY_TIME_TYPE
  ∧ (∀ raw : string,
       restTypeNameToThriftTypeId (ColumnInfoTypeName.Unrecognized raw)
       = TTypeId.NULL_TYPE)
  ∧ (∀ n : ColumnInfoTypeName.t,
       ∃ t : TTypeId.t, restTypeNameToThriftTypeId n = t).
Proof.
  repeat split; try reflexivity.
  intros n. by eexists.
Qed.

(** ** Running the methods *)

Lemma run_progBind {A B} remote (p : Prog A) (f : A → Prog B) log :
  run remote log (progBind p f)
  = run remote (run remote log p).2 (f (run remote log p).1).
Proof.
  revert log. induction p as [a | c k IH]; intros log; simpl; [done |].
  apply IH.
Qed.

(** Invoking [m] and then [f] on what it returned. *)
Lemma invoke_bind {A B} remote log (m : M A) (f : A → M B) this :
  invoke remote log (bind m f) this
  = match invoke remote log m this with
    | (Returned a, this', log') => invoke remote log' (f a) this'
    | (Threw e, this', log') => (Threw e, this', log')
    end.
Proof.
  unfold invoke, bind. rewrite run_progBind.
  destruct (run remote log (m this)) as [[[a | e] this'] log']; done.
Qed.

Lemma invoke_ret {A} remote log (a : A) this :
  invoke remote log (ret a) this = (Returned a, this, log).
Proof. done. Qed.

Lemma invoke_throw {A} remote log e this :
  invoke remote log (@throw A e) this = (Threw e, this, log).
Proof. done. Qed.

Lemma invoke_get remote log this :
  invoke remote log get this = (Returned this, this, log).
Proof. done. Qed.

Lemma invoke_modify remote log f this :
  invoke remote log (modify f) this = (Returned tt, f this, log).
Proof. done. Qed.

Lemma invoke_await remote log c this :
  invoke remote log (await c) this
  = match remote log c with
    | inl e => (Threw e, this, log ++ [c])
    | inr v => (Returned v, this, log ++ [c])
    end.
Proof. unfold invoke, await. simpl. by destruct (remote log c). Qed.

Lemma invoke_liftThrow {A} remote log (r : exn + A) this :
  invoke remote log (liftThrow r) this
  = match r with
    | inl e => (Threw e, this, log)
    | inr a => (Returned a, this, log)
    end.
Proof. by destruct r. Qed.

Lemma invoke_client_executeStatement remote log req this :
  invoke remote log (client_executeStatement req) this
  = match remote log (executeStatementCall req) with
    | inl e => (Threw e, this, log ++ [executeStatementCall req])
    | inr v => (Returned v, this, log ++ [executeStatementCall req])
    end.
Proof. exact (invoke_await remote log (executeStatementCall req) this). Qed.

Lemma invoke_client_getStatement remote log id this :
  invoke remote log (client_getStatement id) this
  = match remote log (getStatementCall id) with
    | inl e => (Threw e, this, log ++ [getStatementCall id])
    | inr v => (Returned v, this, log ++ [getStatementCall id])
    end.
Proof. exact (invoke_await remote log (getStatementCall id) this). Qed.

Lemma invoke_client_getStatementResultChunkN remote log id index this :
  invoke remote log (client_getStatementResultChunkN id index) this
  = match remote log (getStatementResultChunkNCall id index) with
    | inl e =>
        (Threw e, this, log ++ [getStatementResultChunkNCall id index])
    | inr v =>
        (Returned v, this, log ++ [getStatementResultChunkNCall id index])
    end.
Proof.
  exact (invoke_await remote log (getStatementResultChunkNCall id index) this).
Qed.

Lemma invoke_client_cancelExecution remote log id this :
  invoke remote log (client_cancelExecution id) this
  = match remote log (cancelExecutionCall id) with
    | inl e => (Threw e, this, log ++ [cancelExecutionCall id])
    | inr v => (Returned v, this, log ++ [cancelExecutionCall id])
    end.
Proof. exact (invoke_await remote log (cancelExecutionCall id) this). Qed.

Create Rewrite HintDb invoke.
#[local] Hint Rewrite @invoke_bind @invoke_ret @invoke_throw invoke_get
  invoke_modify @invoke_liftThrow invoke_client_executeStatement
  invoke_client_getStatement invoke_client_getStatementResultChunkN
  invoke_client_cancelExecution : invoke.

(** Pushes [invoke] through the next statements of a method body. *)
Ltac step := autorewrite with invoke; simpl.

Lemma invoke_processStatementStatus remote log st this :
  invoke remote log (processStatementStatus st) this
  = match state st with
    | StatementState.Canceled
    | StatementState.Closed =>
        (Returned tt, set_currentStatement None this, log)
    | StatementState.Failed =>
        match error st with
        | Some err =>
            (Threw (Error (error_code err +:+ ": " +:+ message err)),
             this, log)
        | None => (Threw TypeError, this, log)
        end
    | _ => (Returned tt, this, log)
    end.
Proof.
  unfold processStatementStatus.
  destruct (state st); try done. by destruct (error st).
Qed.

Lemma invoke_executeStatement remote log request this :
  invoke remote log (executeStatement request) this
  = match remote log (executeStatementCall (executeRequest this request)) with
    | inl e =>
        (Threw e, this,
         log ++ [executeStatementCall (executeRequest this request)])
    | inr response =>
        match invoke remote
                (log ++ [executeStatementCall (executeRequest this request)])
                (processStatementStatus (status response))
                (set_currentStatement (Some response) this) with
        | (Threw e, this'', log'') => (Threw e, this'', log'')
        | (Returned _, this'', log'') =>
            match currentStatement this'' with
            | None =>
                (Returned
                   {| es_status :=
                        {| statusCode := TStatusCode.INVALID_HANDLE_STATUS;
                           errorMessage := None |};
                      operationHandle := None |}, this'', log'')
            | Some stmt =>
                (Returned
                   {| es_status := SUCCESS;
                      operationHandle :=
                        Some {| operationId := emptyHandleIdentifier;
                                operationType :=
                                  TOperationType.EXECUTE_STATEMENT;
                                hasResultSet :=
                                  isDefined (result stmt ≫= chunk_index) |}
                   |}, this'', log'')
            end
        end
    end.
Proof.
  unfold executeStatement, executeRequest. step.
  destruct (remote log _) as [e | response]; [done |]. step.
  destruct (invoke remote _ (processStatementStatus _) _)
    as [[[[] | e] this''] log'']; [| done]. step.
  by destruct (currentStatement this'').
Qed.

Lemma invoke_getOperationStatus remote log request this :
  invoke remote log (getOperationStatus request) this
  = match currentStatement this with
    | None => (Returned (statusResponse this), this, log)
    | Some stmt =>
        if isDefined (manifest stmt)
        then (Returned (statusResponse this), this, log)
        else
          match remote log (getStatementCall (statement_id stmt)) with
          | inl e =>
              (Threw e, this, log ++ [getStatementCall (statement_id stmt)])
          | inr response =>
              match invoke remote
                      (log ++ [getStatementCall (statement_id stmt)])
                      (processStatementStatus (gs_status response))
                      (set_currentStatement
                         (Some (refresh response stmt)) this) with
              | (Threw e, this'', log'') => (Threw e, this'', log'')
              | (Returned _, this'', log'') =>
                  (Returned (statusResponse this''), this'', log'')
              end
          end
    end.
Proof.
  unfold getOperationStatus, statusResponse. step.
  destruct (currentStatement this) as [stmt |] eqn:Hstmt.
  - destruct (isDefined (manifest stmt)); step.
    { by rewrite Hstmt. }
    destruct (remote log _) as [e | response]; [done |]. step.
    destruct (invoke remote _ (processStatementStatus _) _)
      as [[[[] | e] this''] log'']; [| done]. step.
    by destruct (currentStatement this'').
  - step. by rewrite Hstmt.
Qed.

Lemma invoke_fetchResults remote log request this :
  invoke remote log (fetchResults request) this
  = match currentStatement this with
    | None => (Returned (fetchError "Invalid handle"), this, log)
    | Some stmt =>
        match currentResultChunk this with
        | None => afterSelect stmt (result stmt) this log
        | Some previous =>
            match remote log
                    (getStatementResultChunkNCall
                       (statement_id stmt) (next_chunk_index previous)) with
            | inl e =>
                (Threw e, this,
                 log ++ [getStatementResultChunkNCall
                           (statement_id stmt) (next_chunk_index previous)])
            | inr chunk =>
                afterSelect stmt chunk this
                  (log ++ [getStatementResultChunkNCall
                             (statement_id stmt) (next_chunk_index previous)])
            end
        end
    end.
Proof.
  unfold fetchResults, afterSelect, fetched, schemaOf, fetchError. step.
  destruct (currentStatement this) as [stmt |]; [| done].
  destruct (currentResultChunk this) as [previous |] eqn:Hchunk; step.
  - destruct (remote log _) as [e | [chunk |]]; [done | |]; step; [| done].
    by destruct (restJsonResultToThriftColumnar _ chunk).
  - destruct (result stmt) as [chunk |]; step; [| done].
    by destruct (restJsonResultToThriftColumnar _ chunk).
Qed.

Lemma invoke_closeOperation remote log request this :
  invoke remote log (closeOperation request) this
  = (Returned {| co_status := SUCCESS |}, set_currentStatement None this, log).
Proof. unfold closeOperation. by step. Qed.

Lemma invoke_cancelOperation remote log request this :
  invoke remote log (cancelOperation request) this
  = match currentStatement this with
    | None => (Returned {| ca_status := SUCCESS |}, this, log)
    | Some stmt =>
        match remote log (cancelExecutionCall (statement_id stmt)) with
        | inl e =>
            (Threw e, this, log ++ [cancelExecutionCall (statement_id stmt)])
        | inr _ =>
            (Returned {| ca_status := SUCCESS |},
             set_currentStatement None this,
             log ++ [cancelExecutionCall (statement_id stmt)])
        end
    end.
Proof.
  unfold cancelOperation. step.
  destruct (currentStatement this) as [stmt |]; step; [| done].
  destruct (remote log _) as [e | []]; by step.
Qed.

(** ** The status-processing rule *)

Lemma string_app_assoc (a b c : string) : (a +:+ b) +:+ c = a +:+ b +:+ c.
Proof.
  induction a as [| ch a IH]; [done |].
  change (String ch ((a +:+ b) +:+ c) = String ch (a +:+ b +:+ c)).
  by rewrite IH.
Qed.

Lemma string_app_nil_r (a : string) : a +:+ "" = a.
Proof.
  induction a as [| ch a IH]; [done |].
  change (String ch (a +:+ "") = String ch a).
  by rewrite IH.
Qed.

Lemma includes_code_and_message (code msg : string) :
  includes (code +:+ ": " +:+ msg) code ∧ includes (code +:+ ": " +:+ msg) msg.
Proof.
  split.
  - by exists "", (": " +:+ msg).
  - exists (code +:+ ": "), "".
    by rewrite string_app_nil_r, string_app_assoc.
Qed.

(** C2: the status-processing rule.  On Canceled or Closed it clears the
    tracked statement and raises nothing; on Failed it raises an error whose
    message includes the remote error code and the remote error message and
    leaves the driver as it was; on any other state it leaves the driver
    unchanged.  The rule is what [executeStatement] and [getOperationStatus]
    apply to the status a remote call returned: on Failed they throw that
    error and still track the statement, on Canceled or Closed they track
    nothing afterwards. *)
Theorem processStatementStatus_rule (remote : Remote) (log : list RemoteCall)
    (this : RestDriver) :
  (∀ s err,
     s = StatementState.Canceled ∨ s = StatementState.Closed →
     invoke remote log
       (processStatementStatus {| state := s; error := err |}) this
     = (Returned tt, set_currentStatement None this, log)
     ∧ currentStatement (set_currentStatement None this) = None)
  ∧ (∀ err,
       ∃ msg,
         invoke remote log
           (processStatementStatus
              {| state := StatementState.Failed; error := Some err |}) this
         = (Threw (Error msg), this, log)
         ∧ includes msg (error_code err) ∧ includes msg (message err))
  ∧ (∀ s err,
       s ≠ StatementState.Canceled → s ≠ StatementState.Closed →
       s ≠ StatementState.Failed →
       invoke remote log
         (processStatementStatus {| state := s; error := err |}) this
       = (Returned tt, this, log))
  ∧ (∀ request response,
       remote log (executeStatementCall (executeRequest this request))
       = inr response →
       let after := invoke remote log (executeStatement request) this in
       match state (status response), error (status response) with
       | StatementState.Failed, Some err =>
           completion after
           = Threw (Error (error_code err +:+ ": " +:+ message err))
           ∧ currentStatement (driverAfter after) = Some response
       | StatementState.Failed, None =>
           completion after = Threw TypeError
           ∧ currentStatement (driverAfter after) = Some response
       | StatementState.Canceled, _
       | StatementState.Closed, _ =>
           (∃ r, completion after = Returned r)
           ∧ currentStatement (driverAfter after) = None
       | _, _ =>
           (∃ r, completion after = Returned r)
           ∧ currentStatement (driverAfter after) = Some response
       end)
  ∧ (∀ request stmt response,
       currentStatement this = Some stmt →
       manifest stmt = None →
       remote log (getStatementCall (statement_id stmt)) = inr response →
       let after := invoke remote log (getOperationStatus request) this in
       match state (gs_status response), error (gs_status response) with
       | StatementState.Failed, Some err =>
           completion after
           = Threw (Error (error_code err +:+ ": " +:+ message err))
           ∧ currentStatement (driverAfter after)
             = Some (refresh response stmt)
       | StatementState.Failed, None =>
           completion after = Threw TypeError
           ∧ currentStatement (driverAfter after)
             = Some (refresh response stmt)
       | StatementState.Canceled, _
       | StatementState.Closed, _ =>
           (∃ r, completion after = Returned r)
           ∧ currentStatement (driverAfter after) = None
       | _, _ =>
           (∃ r, completion after = Returned r)
           ∧ currentStatement (driverAfter after)
             = Some (refresh response stmt)
       end).
Proof.
  repeat apply conj.
  - intros s err [-> | ->]; by rewrite invoke_processStatementStatus.
  - intros err. eexists. rewrite invoke_processStatementStatus. simpl.
    split; [done |]. apply includes_code_and_message.
  - intros s err Hcanceled Hclosed Hfailed.
    rewrite invoke_processStatementStatus. by destruct s.
  - intros request response Hreply. simpl.
    rewrite invoke_executeStatement, Hreply, invoke_processStatementStatus.
    destruct (state (status response)), (error (status response));
      simpl; eauto.
  - intros request stmt response Hstmt Hmanifest Hreply. simpl.
    rewrite invoke_getOperationStatus, Hstmt, Hmanifest. simpl.
    rewrite Hreply, invoke_processStatementStatus.
    destruct (state (gs_status response)), (error (gs_status response));
      simpl; eauto.
Qed.

Lemma processStatementStatus_rule_witness :
  completion
    (invoke (scriptedRemote failed nowFailed None) []
       (executeStatement {| statement := "SELEC 1" |})
       (newRestDriver aClient))
  = Threw (Error "42: syntax error")
  ∧ currentStatement
      (driverAfter
         (invoke (scriptedRemote failed nowFailed None) []
            (executeStatement {| statement := "SELEC 1" |})
            (newRestDriver aClient)))
    = Some failed.
Proof.
  exact (proj1 (proj2 (proj2 (proj2
           (processStatementStatus_rule
              (scriptedRemote failed nowFailed None) []
              (newRestDriver aClient)))))
           {| statement := "SELEC 1" |} failed eq_refl).
Defined.

(** ** Sessions *)

Lemma invoke_openSession remote log request this :
  invoke remote log (openSession request) this
  = (Returned
       {| os_status := SUCCESS;
          serverProtocolVersion :=
            orDefault (client_protocol request)
              TProtocolVersion.SPARK_CLI_SERVICE_PROTOCOL_V6;
          sessionHandle := Some {| sessionId := emptyHandleIdentifier |} |},
     set_session (Some request) this, log).
Proof. unfold openSession. by step. Qed.

(** [openSession] always returns a success; it echoes a requested version
    other than zero and answers the default when no version is requested. *)
Lemma openSession_version remote log request this :
  ∃ response,
    completion (invoke remote log (openSession request) this)
    = Returned response
    ∧ os_status response = SUCCESS
    ∧ serverProtocolVersion response
      = match client_protocol request with
        | Some 0 | None => TProtocolVersion.SPARK_CLI_SERVICE_PROTOCOL_V6
        | Some version => version
        end.
Proof.
  rewrite invoke_openSession. eexists. repeat split. simpl.
  by destruct (client_protocol request) as [[| v | v] |].
Qed.

(** C9, at the request that asks for protocol version 0
    (HIVE_CLI_SERVICE_PROTOCOL_V1): [openSession] succeeds, stores the
    request, makes no remote call, and answers with the default version
    SPARK_CLI_SERVICE_PROTOCOL_V6, which is not the version requested. *)
Theorem openSession_version_zero_replaced (remote : Remote)
    (log : list RemoteCall) (this : RestDriver) (ns : option TNamespace) :
  let request :=
    {| client_protocol := Some TProtocolVersion.HIVE_CLI_SERVICE_PROTOCOL_V1;
       initialNamespace := ns |} in
  ∃ response,
    invoke remote log (openSession request) this
    = (Returned response, set_session (Some request) this, log)
    ∧ statusCode (os_status response) = TStatusCode.SUCCESS_STATUS
    ∧ serverProtocolVersion response
      = TProtocolVersion.SPARK_CLI_SERVICE_PROTOCOL_V6
    ∧ Some (serverProtocolVersion response) ≠ client_protocol request.
Proof.
  simpl. eexists. rewrite invoke_openSession. simpl.
  repeat split. discriminate.
Qed.

(** ** Result-set metadata *)

Lemma invoke_getResultSetMetadata remote log request this :
  invoke remote log (getResultSetMetadata request) this
  = match currentStatement this with
    | None =>
        (Returned {| md_status := ERROR "Invalid handle";
                     resultFormat := None;
                     md_schema := None |}, this, log)
    | Some stmt =>
        (Returned
           {| md_status := SUCCESS;
              resultFormat := Some TSparkRowSetType.COLUMN_BASED_SET;
              md_schema :=
                Some {| ts_columns :=
                          match manifest stmt ≫= schema with
                          | Some sch => toColumnDesc <$> columns sch
                          | None => []
                          end |} |}, this, log)
    end.
Proof.
  unfold getResultSetMetadata. step.
  by destruct (currentStatement this).
Qed.

Lemma round53_safe (z : Z) : - 2 ^ 53 ≤ z ≤ 2 ^ 53 → round53 z = z.
Proof.
  intros Hz. unfold round53.
  destruct (decide (Z.abs z = 2 ^ 53)) as [Hedge | Hinside].
  - destruct (Z.abs_spec z) as [[_ Habs] | [_ Habs]].
    + assert (z = 2 ^ 53) as -> by lia. reflexivity.
    + assert (z = - 2 ^ 53) as -> by lia. reflexivity.
  - assert (Z.log2 (Z.abs z) < 53) as Hlog.
    { destruct (decide (Z.abs z = 0)) as [-> | Hpos]; [done |].
      apply Z.log2_lt_pow2; lia. }
    destruct (Z.leb_spec (Z.log2 (Z.abs z) - 52) 0); [done | lia].
Qed.

Example numberAdd_small : numberAdd 41 1 = 42.
Proof. reflexivity. Qed.

(** 2^53 + 1 is no double; the sum rounds back to 2^53. *)
Example numberAdd_2_53 : numberAdd 9007199254740992 1 = 9007199254740992.
Proof. reflexivity. Qed.

Example numberAdd_2_53_2 :
  numberAdd 9007199254740994 1 = 9007199254740996.
Proof. reflexivity. Qed.

(** C7, as amended: when a statement is tracked and its manifest has a
    schema, [getResultSetMetadata] answers with one descriptor per manifest
    column, in the same order, and the descriptor of a column whose
    zero-based position [p] is an integer with -2^53 <= p < 2^53 has
    position [p + 1]. *)
Theorem getResultSetMetadata_position_one_based (remote : Remote)
    (log : list RemoteCall) (request : TGetResultSetMetadataReq)
    (this : RestDriver) (stmt : ExecuteStatementResponse)
    (man : ResultManifest) (sch : ResultSchema) :
  currentStatement this = Some stmt →
  manifest stmt = Some man →
  schema man = Some sch →
  ∃ response descs,
    invoke remote log (getResultSetMetadata request) this
    = (Returned response, this, log)
    ∧ statusCode (md_status response) = TStatusCode.SUCCESS_STATUS
    ∧ md_schema response = Some {| ts_columns := descs |}
    ∧ length descs = length (columns sch)
    ∧ ∀ (i : nat) (column : ColumnInfo),
        columns sch !! i = Some column →
        - 2 ^ 53 ≤ position column < 2 ^ 53 →
        ∃ desc,
          descs !! i = Some desc
          ∧ columnName desc = name column
          ∧ cd_position desc = position column + 1.
Proof.
  intros Hstmt Hman Hsch.
  rewrite invoke_getResultSetMetadata, Hstmt, Hman. simpl. rewrite Hsch.
  eexists _, _. repeat split.
  - by rewrite length_fmap.
  - intros i column Hcol Hsafe. exists (toColumnDesc column).
    rewrite list_lookup_fmap, Hcol. repeat split. simpl.
    unfold numberAdd. apply round53_safe. lia.
Qed.

Lemma getResultSetMetadata_position_one_based_witness :
  ∃ response descs,
    invoke (scriptedRemote succeeded stillPending None) []
      (getResultSetMetadata {| md_operationHandle := aHandle |})
      (tracking succeeded)
    = (Returned response, tracking succeeded, [])
    ∧ statusCode (md_status response) = TStatusCode.SUCCESS_STATUS
    ∧ md_schema response = Some {| ts_columns := descs |}
    ∧ length descs = length (columns twoColumns)
    ∧ ∃ desc,
        descs !! 1%nat = Some desc
        ∧ columnName desc = "label"
        ∧ cd_position desc = 1 + 1.
Proof.
  destruct (getResultSetMetadata_position_one_based
              (scriptedRemote succeeded stillPending None) []
              {| md_operationHandle := aHandle |} (tracking succeeded)
              succeeded {| schema := Some twoColumns |} twoColumns
              eq_refl eq_refl eq_refl)
    as (response & descs & Hinvoke & Hstatus & Hschema & Hlength & Hcolumns).
  exists response, descs. repeat split; try assumption.
  apply (Hcolumns 1%nat
           {| name := "label"; position := 1;
              type_name := ColumnInfoTypeName.String |} eq_refl).
  split; [discriminate | reflexivity].
Defined.

(** C7, as first stated, fails at a column whose position is 2^53: the
    descriptor's position is 2^53 again, not 2^53 + 1. *)
Lemma getResultSetMetadata_position_past_safe_range :
  ∃ response descs,
    invoke (scriptedRemote far stillPending None) []
      (getResultSetMetadata {| md_operationHandle := aHandle |})
      (tracking far)
    = (Returned response, tracking far, [])
    ∧ md_schema response = Some {| ts_columns := descs |}
    ∧ ¬ (∀ (i : nat) (column : ColumnInfo),
           columns farColumns !! i = Some column →
           ∃ desc,
             descs !! i = Some desc
             ∧ columnName desc = name column
             ∧ cd_position desc = position column + 1).
Proof.
  eexists _, _. split; [reflexivity |]. split; [reflexivity |].
  intros Hall.
  destruct (Hall 0%nat _ eq_refl) as (desc & Hdesc & _ & Hposition).
  injection Hdesc as <-. vm_compute in Hposition. discriminate.
Qed.

(** ** Status polling *)

Lemma getOperationStatus_log remote log request this :
  logAfter (invoke remote log (getOperationStatus request) this)
  = log ++ match currentStatement this with
           | Some stmt =>
               if isDefined (manifest stmt) then []
               else [getStatementCall (statement_id stmt)]
           | None => []
           end.
Proof.
  rewrite invoke_getOperationStatus.
  destruct (currentStatement this) as [stmt |]; simpl;
    [| by rewrite app_nil_r].
  destruct (isDefined (manifest stmt)); simpl; [by rewrite app_nil_r |].
  destruct (remote log _) as [e | response]; [done |].
  rewrite invoke_processStatementStatus.
  by destruct (state (gs_status response)), (error (gs_status response)).
Qed.

(** The driver keeps tracking a statement without manifest when the status
    it polled is neither terminal nor comes with a manifest. *)
Lemma getOperationStatus_still_unresolved (remote : Remote) log request this
    stmt response :
  currentStatement this = Some stmt →
  manifest stmt = None →
  remote log (getStatementCall (statement_id stmt)) = inr response →
  gs_manifest response = None →
  state (gs_status response) ≠ StatementState.Canceled →
  state (gs_status response) ≠ StatementState.Closed →
  state (gs_status response) ≠ StatementState.Failed →
  ∃ r,
    invoke remote log (getOperationStatus request) this
    = (Returned r,
       set_currentStatement (Some (refresh response stmt)) this,
       log ++ [getStatementCall (statement_id stmt)]).
Proof.
  intros Hstmt Hmanifest Hreply _ Hcanceled Hclosed Hfailed.
  rewrite invoke_getOperationStatus, Hstmt, Hmanifest. simpl.
  rewrite Hreply, invoke_processStatementStatus.
  destruct (state (gs_status response)); by eauto.
Qed.

Lemma poll_log (remote : Remote) request id n :
  (∀ log', ∃ response,
     remote log' (getStatementCall id) = inr response
     ∧ gs_manifest response = None
     ∧ state (gs_status response) ≠ StatementState.Canceled
     ∧ state (gs_status response) ≠ StatementState.Closed
     ∧ state (gs_status response) ≠ StatementState.Failed) →
  ∀ log this stmt,
    currentStatement this = Some stmt →
    manifest stmt = None →
    statement_id stmt = id →
    logAfter (invoke remote log (poll n request) this)
    = log ++ replicate n (getStatementCall id).
Proof.
  intros Hremote.
  induction n as [| n IH]; intros log this stmt Hstmt Hmanifest Hid; simpl.
  { by rewrite app_nil_r. }
  destruct (Hremote log)
    as (response & Hreply & Hnone & Hcanceled & Hclosed & Hfailed).
  rewrite <- Hid in Hreply.
  destruct (getOperationStatus_still_unresolved remote log request this stmt
              response Hstmt Hmanifest Hreply Hnone Hcanceled Hclosed Hfailed)
    as [r Hinvoke].
  rewrite invoke_bind, Hinvoke.
  rewrite (IH _ _ (refresh response stmt)); [| done..].
  by rewrite Hid, <- app_assoc.
Qed.

(** C3: [getOperationStatus] makes one remote get-statement call when a
    statement is tracked that has no manifest, and no remote call otherwise.
    So the call right after an [executeStatement] whose response carried a
    manifest makes no remote call, and as long as the polled status brings no
    manifest and is not terminal, [n] calls in a row make [n] get-statement
    calls. *)
Theorem getOperationStatus_polls_once (remote : Remote)
    (log : list RemoteCall) (request : TGetOperationStatusReq)
    (this : RestDriver) :
  (∀ stmt,
     currentStatement this = Some stmt → manifest stmt = None →
     logAfter (invoke remote log (getOperationStatus request) this)
     = log ++ [getStatementCall (statement_id stmt)])
  ∧ ((¬ ∃ stmt, currentStatement this = Some stmt ∧ manifest stmt = None) →
     logAfter (invoke remote log (getOperationStatus request) this) = log)
  ∧ (∀ execute response man,
       remote log (executeStatementCall (executeRequest this execute))
       = inr response →
       manifest response = Some man →
       let executed := invoke remote log (executeStatement execute) this in
       logAfter executed
       = log ++ [executeStatementCall (executeRequest this execute)]
       ∧ logAfter
           (invoke remote (logAfter executed) (getOperationStatus request)
              (driverAfter executed))
         = logAfter executed)
  ∧ (∀ stmt n,
       currentStatement this = Some stmt → manifest stmt = None →
       (∀ log', ∃ response,
          remote log' (getStatementCall (statement_id stmt)) = inr response
          ∧ gs_manifest response = None
          ∧ state (gs_status response) ≠ StatementState.Canceled
          ∧ state (gs_status response) ≠ StatementState.Closed
          ∧ state (gs_status response) ≠ StatementState.Failed) →
       logAfter (invoke remote log (poll n request) this)
       = log ++ replicate n (getStatementCall (statement_id stmt))).
Proof.
  repeat apply conj.
  - intros stmt Hstmt Hmanifest.
    by rewrite getOperationStatus_log, Hstmt, Hmanifest.
  - intros Hnot. rewrite getOperationStatus_log.
    destruct (currentStatement this) as [stmt |]; [| by rewrite app_nil_r].
    destruct (manifest stmt) eqn:Hmanifest; simpl; [by rewrite app_nil_r |].
    destruct Hnot. by exists stmt.
  - intros execute response man Hreply Hmanifest. cbv zeta.
    rewrite getOperationStatus_log.
    rewrite invoke_executeStatement, Hreply, invoke_processStatementStatus.
    destruct (state (status response)), (error (status response)); simpl;
      rewrite ?Hmanifest; simpl; by rewrite app_nil_r.
  - intros stmt n Hstmt Hmanifest Hremote.
    by apply (poll_log remote request _ n Hremote log this stmt).
Qed.

Lemma getOperationStatus_polls_once_witness :
  logAfter
    (invoke (scriptedRemote pending stillPending None) []
       (poll 3 {| st_operationHandle := aHandle |}) (tracking pending))
  = [getStatementCall "st-1"; getStatementCall "st-1";
     getStatementCall "st-1"].
Proof.
  refine (proj2 (proj2 (proj2
            (getOperationStatus_polls_once
               (scriptedRemote pending stillPending None) []
               {| st_operationHandle := aHandle |} (tracking pending))))
            pending 3%nat eq_refl eq_refl _).
  intros log'. exists stillPending. by repeat split.
Defined.

(** ** Row-major to column-major conversion *)

Lemma pushRow_length row : ∀ i cols cols',
  pushRow i row cols = inr cols' → length cols' = length cols.
Proof.
  induction row as [| cell rest IH]; intros i cols cols' Hpush; simpl in *.
  { by inversion Hpush. }
  destruct (cols !! i) as [column |]; [| done].
  apply IH in Hpush. by rewrite length_insert in Hpush.
Qed.

(** A row that fits is pushed without a throw. *)
Lemma pushRow_fits row : ∀ i cols,
  (i + length row ≤ length cols)%nat → ∃ cols', pushRow i row cols = inr cols'.
Proof.
  induction row as [| cell rest IH]; intros i cols Hfits; simpl in *.
  { by eexists. }
  destruct (lookup_lt_is_Some_2 cols i) as [column Hcol]; [lia |].
  rewrite Hcol. apply IH. rewrite length_insert. lia.
Qed.

(** A row that reaches past the last accumulator throws. *)
Lemma pushRow_overflow row : ∀ i cols,
  (i ≤ length cols)%nat → (length cols < i + length row)%nat →
  pushRow i row cols = inl TypeError.
Proof.
  induction row as [| cell rest IH]; intros i cols Hi Hover; simpl in *.
  { lia. }
  destruct (cols !! i) as [column |] eqn:Hcol; [| done].
  apply lookup_lt_Some in Hcol.
  apply IH; rewrite length_insert; lia.
Qed.

Lemma forEachRow_fits data : ∀ cols,
  Forall (λ row, (length row ≤ length cols)%nat) data →
  ∃ cols', forEachRow data cols = inr cols' ∧ length cols' = length cols.
Proof.
  induction data as [| row rest IH]; intros cols Hfits; simpl.
  { by eexists. }
  apply Forall_cons in Hfits as [Hrow Hrest].
  destruct (pushRow_fits row 0 cols Hrow) as [cols1 Hpush].
  rewrite Hpush. pose proof (pushRow_length _ _ _ _ Hpush) as Hlen.
  destruct (IH cols1) as (cols' & Heach & Hlen').
  { by rewrite Hlen. }
  exists cols'. split; [done | congruence].
Qed.

Lemma forEachRow_overflow data : ∀ cols,
  Exists (λ row, (length cols < length row)%nat) data →
  forEachRow data cols = inl TypeError.
Proof.
  induction data as [| row rest IH]; intros cols Hover; simpl.
  { by apply Exists_nil in Hover. }
  destruct (pushRow 0 row cols) as [e | cols1] eqn:Hpush.
  - destruct (decide (length cols < length row)%nat) as [Hlong | Hshort].
    + rewrite pushRow_overflow in Hpush; [done | lia | lia].
    + destruct (pushRow_fits row 0 cols) as [cols1 Hfits]; [lia |].
      congruence.
  - apply IH. apply Exists_cons in Hover as [Hrow | Hrest].
    + rewrite pushRow_overflow in Hpush; [done | lia | lia].
    + by rewrite (pushRow_length _ _ _ _ Hpush).
Qed.

(** On string-valued accumulators, a row with one cell per accumulator
    appends each cell to the accumulator of its index. *)
Lemma pushRow_stringColumns row : ∀ i (vss : list (list string)),
  (i + length row = length vss)%nat →
  pushRow i row (stringColumn <$> vss)
  = inr (stringColumn
           <$> (take i vss
                ++ zip_with (λ vs cell, vs ++ [cell]) (drop i vss) row)).
Proof.
  induction row as [| cell rest IH]; intros i vss Hlen; simpl in *.
  { rewrite take_ge, drop_ge by lia. simpl. by rewrite app_nil_r. }
  destruct (lookup_lt_is_Some_2 vss i) as [vs Hvs]; [lia |].
  rewrite list_lookup_fmap, Hvs. simpl.
  change (push cell (stringColumn vs)) with (stringColumn (vs ++ [cell])).
  rewrite <- list_fmap_insert.
  rewrite IH by (rewrite length_insert; lia).
  do 2 f_equal.
  rewrite (take_S_r _ _ (vs ++ [cell]))
    by (apply list_lookup_insert_eq; by eapply lookup_lt_Some).
  rewrite take_insert_ge, drop_insert_lt by lia.
  rewrite (drop_S vss vs i Hvs). simpl. by rewrite <- app_assoc.
Qed.

Lemma forEachRow_stringColumns data : ∀ vss : list (list string),
  Forall (λ row, length row = length vss) data →
  ∃ vss' : list (list string),
    forEachRow data (stringColumn <$> vss) = inr (stringColumn <$> vss')
    ∧ length vss' = length vss
    ∧ ∀ (j : nat) (vs : list string),
        vss !! j = Some vs →
        ∃ cells,
          vss' !! j = Some (vs ++ cells)
          ∧ Forall2 (λ row cell, row !! j = Some cell) data cells.
Proof.
  induction data as [| row rest IH]; intros vss Hrows; simpl.
  { exists vss. repeat split. intros j vs Hvs. exists [].
    by rewrite app_nil_r. }
  apply Forall_cons in Hrows as [Hrow Hrest].
  rewrite pushRow_stringColumns by done. simpl. rewrite drop_0.
  set (vss1 := zip_with (λ vs cell, vs ++ [cell]) vss row).
  assert (length vss1 = length vss) as Hlen1.
  { unfold vss1. rewrite length_zip_with. lia. }
  destruct (IH vss1) as (vss' & Heach & Hlen' & Hcols).
  { by rewrite Hlen1. }
  exists vss'. split; [done |]. split; [congruence |].
  intros j vs Hvs.
  destruct (lookup_lt_is_Some_2 row j) as [cell Hcell].
  { rewrite Hrow. by eapply lookup_lt_Some. }
  destruct (Hcols j (vs ++ [cell])) as (cells & Hj & Hcells).
  { unfold vss1. rewrite lookup_zip_with, Hvs. simpl. by rewrite Hcell. }
  exists (cell :: cells). split.
  - by rewrite Hj, <- app_assoc.
  - by constructor.
Qed.

Lemma restJsonResultToThriftColumnar_rows schema chunk :
  restJsonResultToThriftColumnar schema chunk
  = match forEachRow (rowsOf chunk) ((λ _, emptyColumn) <$> columns schema) with
    | inl e => inl e
    | inr cols =>
        inr {| startRowOffset := 0;
               rows := [];
               rs_columns := cols;
               columnCount := length cols |}
    end.
Proof.
  unfold restJsonResultToThriftColumnar, rowsOf.
  by destruct (data_array chunk).
Qed.

Lemma restJsonResultToThriftColumnar_overflow schema chunk :
  Exists (λ row, (length (columns schema) < length row)%nat) (rowsOf chunk) →
  restJsonResultToThriftColumnar schema chunk = inl TypeError.
Proof.
  intros Hover. rewrite restJsonResultToThriftColumnar_rows.
  rewrite forEachRow_overflow; [done |]. by rewrite length_fmap.
Qed.

Example restJsonResultToThriftColumnar_twoRows :
  restJsonResultToThriftColumnar twoColumns twoRows
  = inr {| startRowOffset := 0;
           rows := [];
           rs_columns := [stringColumn ["1"; "2"]; stringColumn ["a"; "b"]];
           columnCount := 2 |}.
Proof. reflexivity. Qed.

Example restJsonResultToThriftColumnar_wideRows :
  restJsonResultToThriftColumnar twoColumns wideRows = inl TypeError.
Proof. reflexivity. Qed.

(** A row shorter than the schema leaves the later columns shorter. *)
Example restJsonResultToThriftColumnar_shortRow :
  restJsonResultToThriftColumnar twoColumns
    {| chunk_index := Some 0;
       next_chunk_index := None;
       data_array := Some [ ["1"; "a"]; ["2"] ] |}
  = inr {| startRowOffset := 0;
           rows := [];
           rs_columns := [stringColumn ["1"; "2"]; stringColumn ["a"]];
           columnCount := 2 |}.
Proof. reflexivity. Qed.

(** C4: for a schema of [n] columns and a chunk whose rows all have [n]
    cells, the conversion returns a row set of exactly [n] string-valued
    columns, and column [j] holds the [j]-th cell of every row, in row order.
    When the tracked statement has no manifest schema, [fetchResults]
    converts the chunk it returns with the schema of zero columns. *)
Theorem restJsonResultToThriftColumnar_columnar (sch : ResultSchema)
    (chunk : ResultData) :
  (Forall (λ row, length row = length (columns sch)) (rowsOf chunk) →
   ∃ rowSet,
     restJsonResultToThriftColumnar sch chunk = inr rowSet
     ∧ length (rs_columns rowSet) = length (columns sch)
     ∧ columnCount rowSet = length (columns sch)
     ∧ ∀ j : nat,
         (j < length (columns sch))%nat →
         ∃ cells,
           rs_columns rowSet !! j = Some (stringColumn cells)
           ∧ Forall2 (λ row cell, row !! j = Some cell) (rowsOf chunk) cells)
  ∧ (∀ (remote : Remote) log request this stmt,
       currentStatement this = Some stmt →
       manifest stmt ≫= schema = None →
       length (columns (schemaOf stmt)) = 0%nat
       ∧ (currentResultChunk this = None →
          result stmt = Some chunk →
          completion (invoke remote log (fetchResults request) this)
          = fetched noSchema chunk)
       ∧ (∀ previous,
            currentResultChunk this = Some previous →
            remote log
              (getStatementResultChunkNCall
                 (statement_id stmt) (next_chunk_index previous))
            = inr (Some chunk) →
            completion (invoke remote log (fetchResults request) this)
            = fetched noSchema chunk)).
Proof.
  split.
  - intros Hrows. rewrite restJsonResultToThriftColumnar_rows.
    change ((λ _ : ColumnInfo, emptyColumn) <$> columns sch)
      with ((stringColumn ∘ (λ _ : ColumnInfo, [])) <$> columns sch).
    rewrite list_fmap_compose.
    destruct (forEachRow_stringColumns (rowsOf chunk)
                ((λ _, []) <$> columns sch))
      as (vss' & Heach & Hlen & Hcols).
    { by rewrite length_fmap. }
    rewrite Heach. rewrite length_fmap in Hlen.
    eexists. split; [done |]. simpl. rewrite length_fmap.
    repeat split; try done.
    intros j Hj.
    destruct (lookup_lt_is_Some_2 (columns sch) j Hj) as [column Hcolumn].
    destruct (Hcols j []) as (cells & Hcells & Hall).
    { by rewrite list_lookup_fmap, Hcolumn. }
    exists cells. by rewrite list_lookup_fmap, Hcells.
  - intros remote log request this stmt Hstmt Hschema.
    assert (schemaOf stmt = noSchema) as Hof.
    { unfold schemaOf. by rewrite Hschema. }
    rewrite Hof. split; [done |]. split.
    + intros Hchunk Hresult.
      rewrite invoke_fetchResults, Hstmt, Hchunk, Hresult. simpl.
      by rewrite Hof.
    + intros previous Hchunk Hreply.
      rewrite invoke_fetchResults, Hstmt, Hchunk, Hreply. simpl.
      by rewrite Hof.
Qed.

Lemma restJsonResultToThriftColumnar_columnar_witness :
  (∃ rowSet,
     restJsonResultToThriftColumnar twoColumns twoRows = inr rowSet
     ∧ length (rs_columns rowSet) = length (columns twoColumns)
     ∧ columnCount rowSet = length (columns twoColumns)
     ∧ ∀ j : nat,
         (j < length (columns twoColumns))%nat →
         ∃ cells,
           rs_columns rowSet !! j = Some (stringColumn cells)
           ∧ Forall2 (λ row cell, row !! j = Some cell) (rowsOf twoRows) cells)
  ∧ completion
      (invoke (scriptedRemote withoutSchema stillPending None) []
         (fetchResults {| fr_operationHandle := aHandle |})
         (tracking withoutSchema))
    = fetched noSchema noRows.
Proof.
  split.
  - apply (proj1 (restJsonResultToThriftColumnar_columnar twoColumns twoRows)).
    repeat constructor.
  - exact (proj1 (proj2 (proj2
             (restJsonResultToThriftColumnar_columnar twoColumns noRows)
             (scriptedRemote withoutSchema stillPending None) []
             {| fr_operationHandle := aHandle |} (tracking withoutSchema)
             withoutSchema eq_refl eq_refl))
             eq_refl eq_refl).
Defined.

(** C10: the conversion returns a row set exactly when no row has more
    cells than the schema has columns.  A row with more cells reaches past
    the last accumulator and the conversion throws; [fetchResults] then
    throws too, whether the chunk came with the statement or from the remote
    service.  Such chunks exist. *)
Theorem restJsonResultToThriftColumnar_total_iff (schema : ResultSchema)
    (chunk : ResultData) :
  ((∃ rowSet, restJsonResultToThriftColumnar schema chunk = inr rowSet)
   ↔ Forall (λ row, (length row ≤ length (columns schema))%nat)
       (rowsOf chunk))
  ∧ (Exists (λ row, (length (columns schema) < length row)%nat)
       (rowsOf chunk) →
     restJsonResultToThriftColumnar schema chunk = inl TypeError
     ∧ ∀ (remote : Remote) log request this stmt,
         currentStatement this = Some stmt →
         schemaOf stmt = schema →
         (currentResultChunk this = None →
          result stmt = Some chunk →
          completion (invoke remote log (fetchResults request) this)
          = Threw TypeError)
         ∧ (∀ previous,
              currentResultChunk this = Some previous →
              remote log
                (getStatementResultChunkNCall
                   (statement_id stmt) (next_chunk_index previous))
              = inr (Some chunk) →
              completion (invoke remote log (fetchResults request) this)
              = Threw TypeError))
  ∧ (∃ schema' chunk',
       Exists (λ row, (length (columns schema') < length row)%nat)
         (rowsOf chunk')
       ∧ restJsonResultToThriftColumnar schema' chunk' = inl TypeError).
Proof.
  repeat apply conj.
  - intros [rowSet Hok].
    destruct (decide (Forall (λ row,
                (length row ≤ length (columns schema))%nat) (rowsOf chunk)))
      as [Hall | Hnot]; [done |].
    apply not_Forall_Exists in Hnot; [| intros row; apply _].
    rewrite restJsonResultToThriftColumnar_overflow in Hok; [done |].
    eapply Exists_impl; [exact Hnot |]. simpl. intros row Hrow. lia.
  - intros Hall. rewrite restJsonResultToThriftColumnar_rows.
    destruct (forEachRow_fits (rowsOf chunk)
                ((λ _, emptyColumn) <$> columns schema))
      as (cols' & Heach & _).
    { by rewrite length_fmap. }
    rewrite Heach. by eexists.
  - intros Hover.
    pose proof (restJsonResultToThriftColumnar_overflow _ _ Hover) as Hthrow.
    split; [done |].
    intros remote log request this stmt Hstmt Hschema. split.
    + intros Hchunk Hresult.
      rewrite invoke_fetchResults, Hstmt, Hchunk, Hresult. simpl.
      unfold fetched. by rewrite Hschema, Hthrow.
    + intros previous Hchunk Hreply.
      rewrite invoke_fetchResults, Hstmt, Hchunk, Hreply. simpl.
      unfold fetched. by rewrite Hschema, Hthrow.
  - exists twoColumns, wideRows. split; [| done].
    apply Exists_cons_hd. simpl. lia.
Qed.

Lemma restJsonResultToThriftColumnar_total_iff_witness :
  completion
    (invoke (scriptedRemote wide stillPending None) []
       (fetchResults {| fr_operationHandle := aHandle |}) (tracking wide))
  = Threw TypeError.
Proof.
  refine (proj1 (proj2 (proj1 (proj2
            (restJsonResultToThriftColumnar_total_iff twoColumns wideRows))
            _)
            (scriptedRemote wide stillPending None) []
            {| fr_operationHandle := aHandle |} (tracking wide) wide
            eq_refl eq_refl)
            eq_refl eq_refl).
  apply Exists_cons_hd. simpl. lia.
Defined.

(** ** Fetching results *)

(** The second of two fetches asks for the index the first chunk names as
    next. *)
Example fetchResults_twice :
  logAfter
    (invoke (scriptedRemote succeeded stillPending None) []
       (let! _first := fetchResults {| fr_operationHandle := aHandle |} in
        fetchResults {| fr_operationHandle := aHandle |})
       (tracking succeeded))
  = [getStatementResultChunkNCall "st-1" (Some 1)].
Proof. reflexivity. Qed.



(** ** One statement after the other *)

(** C1, on a run of two statements.  [closeOperation], [cancelOperation] and
    [executeStatement] leave [currentResultChunk] as it was.  So when
    statement st-1 has been fetched from and closed, and statement st-9 is
    executed, the first [fetchResults] does not return the chunk attached to
    st-9: it asks the remote service for chunk 1 of st-9, the index that
    followed the chunk of st-1, and here answers "No more data". *)
Theorem stale_chunk_after_new_statement :
  (∀ (remote : Remote) log request this,
     currentResultChunk
       (driverAfter (invoke remote log (closeOperation request) this))
     = currentResultChunk this)
  ∧ (∀ (remote : Remote) log request this,
       currentResultChunk
         (driverAfter (invoke remote log (cancelOperation request) this))
       = currentResultChunk this)
  ∧ (∀ (remote : Remote) log request this,
       currentResultChunk
         (driverAfter (invoke remote log (executeStatement request) this))
       = currentResultChunk this)
  ∧ result second = Some freshRows
  ∧ invoke twoStatements [] oneAfterTheOther (newRestDriver aClient)
    = (Returned (fetchError "No more data"),
       {| client := aClient;
          session := None;
          currentStatement := Some second;
          currentResultChunk := None |},
       [ executeStatementCall
           (executeRequest (newRestDriver aClient)
              {| statement := "SELECT 1" |});
         executeStatementCall
           (executeRequest (newRestDriver aClient)
              {| statement := "SELECT 2" |});
         getStatementResultChunkNCall "st-9" (Some 1) ]).
Proof.
  repeat apply conj.
  - intros remote log request this. by rewrite invoke_closeOperation.
  - intros remote log request this. rewrite invoke_cancelOperation.
    destruct (currentStatement this) as [stmt |]; [| done].
    by destruct (remote log _).
  - intros remote log request this.
    rewrite invoke_executeStatement.
    destruct (remote log _) as [e | response]; [done |].
    rewrite invoke_processStatementStatus.
    by destruct (state (status response)), (error (status response)).
  - done.
  - vm_compute. reflexivity.
Qed.

(** * Further properties of the driver *)

(** ** What the translations can and cannot tell apart *)

(** X1: every RPC state the state mapping can return comes from exactly one
    kind of remote state: FINISHED only from Succeeded, ERROR only from
    Failed, and so on, the unknown state only from an unrecognized one; the
    initialized and timed-out states are never returned. *)
Theorem restOperationStateToThriftOperationState_faithful
    (s : StatementState.t) :
  (restOperationStateToThriftOperationState s = TOperationState.FINISHED_STATE
   ↔ s = StatementState.Succeeded)
  ∧ (restOperationStateToThriftOperationState s = TOperationState.ERROR_STATE
     ↔ s = StatementState.Failed)
  ∧ (restOperationStateToThriftOperationState s
     = TOperationState.CANCELED_STATE
     ↔ s = StatementState.Canceled)
  ∧ (restOperationStateToThriftOperationState s = TOperationState.CLOSED_STATE
     ↔ s = StatementState.Closed)
  ∧ (restOperationStateToThriftOperationState s
     = TOperationState.PENDING_STATE
     ↔ s = StatementState.Pending)
  ∧ (restOperationStateToThriftOperationState s
     = TOperationState.RUNNING_STATE
     ↔ s = StatementState.Running)
  ∧ (restOperationStateToThriftOperationState s = TOperationState.UKNOWN_STATE
     ↔ ∃ raw, s = StatementState.Unrecognized raw)
  ∧ restOperationStateToThriftOperationState s
    ≠ TOperationState.INITIALIZED_STATE
  ∧ restOperationStateToThriftOperationState s
    ≠ TOperationState.TIMEDOUT_STATE.
Proof.
  destruct s; simpl; repeat split; try done; try (intros [raw' ?]; done).
  intros _. by eexists.
Qed.

(** X2: the type mapping never returns the bigint, varchar, union or
    interval-year-month type; it returns the int type exactly for the names
    int and long, and the null type exactly for the name null and for
    unrecognized names. *)
Theorem restTypeNameToThriftTypeId_image (n : ColumnInfoTypeName.t) :
  restTypeNameToThriftTypeId n ≠ TTypeId.BIGINT_TYPE
  ∧ restTypeNameToThriftTypeId n ≠ TTypeId.VARCHAR_TYPE
  ∧ restTypeNameToThriftTypeId n ≠ TTypeId.UNION_TYPE
  ∧ restTypeNameToThriftTypeId n ≠ TTypeId.INTERVAL_YEAR_MONTH_TYPE
  ∧ (restTypeNameToThriftTypeId n = TTypeId.INT_TYPE
     ↔ n = ColumnInfoTypeName.Int ∨ n = ColumnInfoTypeName.Long)
  ∧ (restTypeNameToThriftTypeId n = TTypeId.NULL_TYPE
     ↔ n = ColumnInfoTypeName.Null
       ∨ ∃ raw, n = ColumnInfoTypeName.Unrecognized raw).
Proof.
  destruct n; simpl; repeat split; try done; eauto;
    try (by intros [? | ?]); by intros [? | [raw' ?]].
Qed.

(** ** Sessions and execution *)

Lemma invoke_closeSession remote log request this :
  invoke remote log (closeSession request) this
  = (Returned {| cs_status := SUCCESS |}, set_session None this, log).
Proof. unfold closeSession. by step. Qed.

(** X3: a statement executed after [openSession] makes exactly one remote
    call, an execute call that carries the catalog and schema of the opened
    session's namespace, the driver's warehouse, the statement text and the
    fixed options; after [closeSession] the one call carries no catalog and
    no schema. *)
Theorem executeStatement_sends_session_namespace (remote : Remote)
    (log : list RemoteCall) (open : TOpenSessionReq)
    (close : TCloseSessionReq) (execute : TExecuteStatementReq)
    (this : RestDriver) :
  let opened := invoke remote log (openSession open) this in
  let closed := invoke remote log (closeSession close) (driverAfter opened) in
  let request catalog schema :=
    {| rq_catalog := catalog;
       rq_schema := schema;
       rq_disposition := Disposition.Inline;
       rq_format := Format.JsonArray;
       rq_on_wait_timeout := TimeoutAction.Continue;
       rq_wait_timeout := "5s";
       rq_warehouse_id := getWarehouseId (client this);
       rq_statement := statement execute |} in
  logAfter opened = log
  ∧ logAfter closed = log
  ∧ logAfter
      (invoke remote log (executeStatement execute) (driverAfter opened))
    = log ++ [executeStatementCall
                (request (initialNamespace open ≫= catalogName)
                         (initialNamespace open ≫= schemaName))]
  ∧ logAfter
      (invoke remote log (executeStatement execute) (driverAfter closed))
    = log ++ [executeStatementCall (request None None)].
Proof.
  cbv zeta. rewrite invoke_openSession, invoke_closeSession. simpl.
  repeat split; rewrite invoke_executeStatement;
    (destruct (remote log _) as [e | response]; [done |]);
    rewrite invoke_processStatementStatus;
    by destruct (state (status response)), (error (status response)).
Qed.

(** X4: when the remote call a method makes is rejected, the method throws
    the rejection and leaves the driver exactly as it was: a statement that
    was tracked before [executeStatement], [getOperationStatus],
    [fetchResults] or [cancelOperation] is still tracked, with the same chunk
    pointer. *)
Theorem rejected_call_leaves_driver (remote : Remote) (log : list RemoteCall)
    (this : RestDriver) (e : exn) :
  (∀ request,
     remote log (executeStatementCall (executeRequest this request)) = inl e →
     invoke remote log (executeStatement request) this
     = (Threw e, this,
        log ++ [executeStatementCall (executeRequest this request)]))
  ∧ (∀ request stmt,
       currentStatement this = Some stmt → manifest stmt = None →
       remote log (getStatementCall (statement_id stmt)) = inl e →
       invoke remote log (getOperationStatus request) this
       = (Threw e, this, log ++ [getStatementCall (statement_id stmt)]))
  ∧ (∀ request stmt previous,
       currentStatement this = Some stmt →
       currentResultChunk this = Some previous →
       remote log
         (getStatementResultChunkNCall
            (statement_id stmt) (next_chunk_index previous))
       = inl e →
       invoke remote log (fetchResults request) this
       = (Threw e, this,
          log ++ [getStatementResultChunkNCall
                    (statement_id stmt) (next_chunk_index previous)]))
  ∧ (∀ request stmt,
       currentStatement this = Some stmt →
       remote log (cancelExecutionCall (statement_id stmt)) = inl e →
       invoke remote log (cancelOperation request) this
       = (Threw e, this, log ++ [cancelExecutionCall (statement_id stmt)])).
Proof.
  repeat apply conj.
  - intros request Hreply. by rewrite invoke_executeStatement, Hreply.
  - intros request stmt Hstmt Hmanifest Hreply.
    rewrite invoke_getOperationStatus, Hstmt, Hmanifest. simpl.
    by rewrite Hreply.
  - intros request stmt previous Hstmt Hchunk Hreply.
    by rewrite invoke_fetchResults, Hstmt, Hchunk, Hreply.
  - intros request stmt Hstmt Hreply.
    by rewrite invoke_cancelOperation, Hstmt, Hreply.
Qed.

Lemma rejected_call_leaves_driver_witness :
  invoke (λ _ _, inl (Rejected "503")) []
    (cancelOperation {| ca_operationHandle := aHandle |}) (tracking succeeded)
  = (Threw (Rejected "503"), tracking succeeded,
     [cancelExecutionCall "st-1"]).
Proof.
  exact (proj2 (proj2 (proj2
           (rejected_call_leaves_driver (λ _ _, inl (Rejected "503")) []
              (tracking succeeded) (Rejected "503"))))
           {| ca_operationHandle := aHandle |} succeeded eq_refl eq_refl).
Defined.

(** X5: when the execute call resolves, what [executeStatement] tracks and
    returns depends on the reply alone, not on what was tracked before.  A
    reply that is neither canceled, closed nor failed is tracked and answered
    by a success whose handle says "has result set" exactly when the reply's
    result has a chunk index; a canceled or closed reply leaves nothing
    tracked and is answered by the invalid-handle status without a handle. *)
Theorem executeStatement_tracks_reply (remote : Remote)
    (log : list RemoteCall) (request : TExecuteStatementReq)
    (this : RestDriver) (response : ExecuteStatementResponse) :
  remote log (executeStatementCall (executeRequest this request))
  = inr response →
  let after := invoke remote log (executeStatement request) this in
  (state (status response) ≠ StatementState.Canceled →
   state (status response) ≠ StatementState.Closed →
   state (status response) ≠ StatementState.Failed →
   driverAfter after = set_currentStatement (Some response) this
   ∧ completion after
     = Returned
         {| es_status := SUCCESS;
            operationHandle :=
              Some {| operationId := emptyHandleIdentifier;
                      operationType := TOperationType.EXECUTE_STATEMENT;
                      hasResultSet :=
                        isDefined (result response ≫= chunk_index) |} |})
  ∧ (state (status response) = StatementState.Canceled
     ∨ state (status response) = StatementState.Closed →
     driverAfter after = set_currentStatement None this
     ∧ completion after
       = Returned
           {| es_status :=
                {| statusCode := TStatusCode.INVALID_HANDLE_STATUS;
                   errorMessage := None |};
              operationHandle := None |}).
Proof.
  intros Hreply. cbv zeta.
  rewrite invoke_executeStatement, Hreply, invoke_processStatementStatus.
  split.
  - intros Hcanceled Hclosed Hfailed. by destruct (state (status response)).
  - by intros [-> | ->].
Qed.

Lemma executeStatement_tracks_reply_witness :
  driverAfter
    (invoke (scriptedRemote succeeded stillPending None) []
       (executeStatement {| statement := "SELECT 1" |}) (tracking pending))
  = set_currentStatement (Some succeeded) (tracking pending)
  ∧ completion
      (invoke (scriptedRemote succeeded stillPending None) []
         (executeStatement {| statement := "SELECT 1" |}) (tracking pending))
    = Returned
        {| es_status := SUCCESS;
           operationHandle :=
             Some {| operationId := emptyHandleIdentifier;
                     operationType := TOperationType.EXECUTE_STATEMENT;
                     hasResultSet := true |} |}.
Proof.
  refine (proj1
            (executeStatement_tracks_reply
               (scriptedRemote succeeded stillPending None) []
               {| statement := "SELECT 1" |} (tracking pending) succeeded
               eq_refl)
            _ _ _); discriminate.
Defined.

(** X6: the two "has result set" flags test different things.  For a
    succeeded reply with a manifest whose result is present but carries no
    chunk index, the handle returned by [executeStatement] says there is no
    result set, while [getOperationStatus] right after says there is one.
    [fetchResults] right after returns that result's rows when the driver
    held no chunk pointer; when it held one, left from an earlier statement,
    it asks the remote service for the chunk that follows that pointer
    instead. *)
Theorem hasResultSet_flags_disagree (remote : Remote) (log : list RemoteCall)
    (execute : TExecuteStatementReq) (poll : TGetOperationStatusReq)
    (fetch : TFetchResultsReq) (this : RestDriver)
    (response : ExecuteStatementResponse) (man : ResultManifest)
    (chunk : ResultData) :
  remote log (executeStatementCall (executeRequest this execute))
  = inr response →
  state (status response) = StatementState.Succeeded →
  manifest response = Some man →
  result response = Some chunk →
  chunk_index chunk = None →
  let executed := invoke remote log (executeStatement execute) this in
  (∃ r handle,
     completion executed = Returned r
     ∧ operationHandle r = Some handle
     ∧ hasResultSet handle = false)
  ∧ (∃ r,
       invoke remote (logAfter executed) (getOperationStatus poll)
         (driverAfter executed)
       = (Returned r, driverAfter executed, logAfter executed)
       ∧ st_hasResultSet r = Some true)
  ∧ (currentResultChunk this = None →
     invoke remote (logAfter executed) (fetchResults fetch)
       (driverAfter executed)
     = (fetched (schemaOf response) chunk,
        set_currentResultChunk (Some chunk) (driverAfter executed),
        logAfter executed))
  ∧ (∀ previous,
       currentResultChunk this = Some previous →
       logAfter
         (invoke remote (logAfter executed) (fetchResults fetch)
            (driverAfter executed))
       = logAfter executed
         ++ [getStatementResultChunkNCall
               (statement_id response) (next_chunk_index previous)]).
Proof.
  intros Hreply Hstate Hmanifest Hresult Hindex. cbv zeta.
  rewrite invoke_executeStatement, Hreply, invoke_processStatementStatus.
  rewrite Hstate. simpl. rewrite Hresult. simpl. rewrite Hindex.
  repeat apply conj.
  - by eexists _, _.
  - rewrite invoke_getOperationStatus. simpl. rewrite Hmanifest. simpl.
    eexists. split; [done |]. unfold statusResponse. simpl.
    by rewrite Hresult.
  - intros Hchunk. rewrite invoke_fetchResults. simpl.
    by rewrite Hchunk, Hresult.
  - intros previous Hchunk. rewrite invoke_fetchResults. simpl.
    rewrite Hchunk.
    destruct (remote _ (getStatementResultChunkNCall _ _))
      as [e | [next |]]; try done;
      unfold afterSelect, fetched;
      by destruct (restJsonResultToThriftColumnar _ next).
Qed.

Lemma hasResultSet_flags_disagree_witness :
  invoke (scriptedRemote unindexed stillPending None)
    [executeStatementCall
       (executeRequest (newRestDriver aClient)
          {| statement := "SELECT 1" |})]
    (fetchResults {| fr_operationHandle := aHandle |})
    (tracking unindexed)
  = (Returned
       {| fr_status := SUCCESS;
          hasMoreRows := Some false;
          results :=
            Some {| startRowOffset := 0;
                    rows := [];
                    rs_columns := [stringColumn ["1"]; stringColumn ["a"]];
                    columnCount := 2 |} |},
     set_currentResultChunk (result unindexed) (tracking unindexed),
     [executeStatementCall
        (executeRequest (newRestDriver aClient)
           {| statement := "SELECT 1" |})]).
Proof.
  exact (proj1 (proj2 (proj2
           (hasResultSet_flags_disagree
              (scriptedRemote unindexed stillPending None) []
              {| statement := "SELECT 1" |}
              {| st_operationHandle := aHandle |}
              {| fr_operationHandle := aHandle |}
              (newRestDriver aClient) unindexed
              {| schema := Some twoColumns |}
              {| chunk_index := None;
                 next_chunk_index := None;
                 data_array := Some [ ["1"; "a"] ] |}
              eq_refl eq_refl eq_refl eq_refl eq_refl)))
           eq_refl).
Defined.

(** ** Status polling, once resolved *)

(** X7: for a tracked statement that has a manifest, [getOperationStatus]
    makes no remote call and changes nothing; it answers with a success that
    maps the stored state, error code 0, a "has result set" flag that tells
    whether a result is stored, and an error message that is always present:
    "code: message" of the stored error, or "undefined: undefined" when the
    status has no error. *)
Theorem getOperationStatus_resolved (remote : Remote) (log : list RemoteCall)
    (request : TGetOperationStatusReq) (this : RestDriver)
    (stmt : ExecuteStatementResponse) (man : ResultManifest) :
  currentStatement this = Some stmt →
  manifest stmt = Some man →
  ∃ r,
    invoke remote log (getOperationStatus request) this
    = (Returned r, this, log)
    ∧ st_status r = SUCCESS
    ∧ operationState r
      = Some (restOperationStateToThriftOperationState (state (status stmt)))
    ∧ errorCode r = Some 0
    ∧ st_hasResultSet r = Some (isDefined (result stmt))
    ∧ (error (status stmt) = None →
       st_errorMessage r = Some "undefined: undefined")
    ∧ (∀ err,
         error (status stmt) = Some err →
         st_errorMessage r
         = Some (error_code err +:+ ": " +:+ message err)).
Proof.
  intros Hstmt Hmanifest.
  rewrite invoke_getOperationStatus, Hstmt, Hmanifest. simpl.
  eexists. split; [done |]. unfold statusResponse. rewrite Hstmt. simpl.
  repeat split.
  - by intros ->.
  - by intros err ->.
Qed.

Lemma getOperationStatus_resolved_witness :
  ∃ r,
    invoke (scriptedRemote succeeded stillPending None) []
      (getOperationStatus {| st_operationHandle := aHandle |})
      (tracking succeeded)
    = (Returned r, tracking succeeded, [])
    ∧ st_status r = SUCCESS
    ∧ operationState r = Some TOperationState.FINISHED_STATE
    ∧ errorCode r = Some 0
    ∧ st_hasResultSet r = Some true
    ∧ (error (status succeeded) = None →
       st_errorMessage r = Some "undefined: undefined")
    ∧ (∀ err,
         error (status succeeded) = Some err →
         st_errorMessage r
         = Some (error_code err +:+ ": " +:+ message err)).
Proof.
  exact (getOperationStatus_resolved
           (scriptedRemote succeeded stillPending None) []
           {| st_operationHandle := aHandle |} (tracking succeeded)
           succeeded {| schema := Some twoColumns |} eq_refl eq_refl).
Defined.

(** X8: polling ends with the manifest.  When the get-statement reply brings
    a manifest and is neither canceled, closed nor failed, the driver stores
    the reply's status, manifest and result under the statement id it had,
    and every later [getOperationStatus] returns the same response without a
    remote call, whatever the remote service would answer by then. *)
Theorem getOperationStatus_settles (remote : Remote) (log : list RemoteCall)
    (request : TGetOperationStatusReq) (this : RestDriver)
    (stmt : ExecuteStatementResponse) (response : GetStatementResponse)
    (man : ResultManifest) :
  currentStatement this = Some stmt →
  manifest stmt = None →
  remote log (getStatementCall (statement_id stmt)) = inr response →
  gs_manifest response = Some man →
  state (gs_status response) ≠ StatementState.Canceled →
  state (gs_status response) ≠ StatementState.Closed →
  state (gs_status response) ≠ StatementState.Failed →
  let polled := invoke remote log (getOperationStatus request) this in
  ∃ r,
    completion polled = Returned r
    ∧ currentStatement (driverAfter polled)
      = Some {| statement_id := statement_id stmt;
                status := gs_status response;
                manifest := Some man;
                result := gs_result response |}
    ∧ ∀ (remote' : Remote) request',
        invoke remote' (logAfter polled) (getOperationStatus request')
          (driverAfter polled)
        = (Returned r, driverAfter polled, logAfter polled).
Proof.
  intros Hstmt Hmanifest Hreply Hman Hcanceled Hclosed Hfailed. cbv zeta.
  rewrite invoke_getOperationStatus, Hstmt, Hmanifest. simpl.
  rewrite Hreply, invoke_processStatementStatus.
  assert (∀ this', currentStatement this' = Some (refresh response stmt) →
          ∀ (remote' : Remote) log' request',
            invoke remote' log' (getOperationStatus request') this'
            = (Returned (statusResponse this'), this', log')) as Hagain.
  { intros this' Hthis' remote' log' request'.
    rewrite invoke_getOperationStatus, Hthis'. simpl. by rewrite Hman. }
  destruct (state (gs_status response)); try done; simpl;
    (eexists; split; [done |]; split;
     [unfold refresh; by rewrite Hman | intros; by apply Hagain]).
Qed.

Lemma getOperationStatus_settles_witness :
  ∃ r,
    completion
      (invoke (scriptedRemote pending resolved None) []
         (getOperationStatus {| st_operationHandle := aHandle |})
         (tracking pending))
    = Returned r
    ∧ currentStatement
        (driverAfter
           (invoke (scriptedRemote pending resolved None) []
              (getOperationStatus {| st_operationHandle := aHandle |})
              (tracking pending)))
      = Some {| statement_id := "st-1";
                status := okStatus StatementState.Succeeded;
                manifest := Some {| schema := Some twoColumns |};
                result := Some twoRows |}
    ∧ ∀ (remote' : Remote) request',
        invoke remote'
          (logAfter
             (invoke (scriptedRemote pending resolved None) []
                (getOperationStatus {| st_operationHandle := aHandle |})
                (tracking pending)))
          (getOperationStatus request')
          (driverAfter
             (invoke (scriptedRemote pending resolved None) []
                (getOperationStatus {| st_operationHandle := aHandle |})
                (tracking pending)))
        = (Returned r,
           driverAfter
             (invoke (scriptedRemote pending resolved None) []
                (getOperationStatus {| st_operationHandle := aHandle |})
                (tracking pending)),
           logAfter
             (invoke (scriptedRemote pending resolved None) []
                (getOperationStatus {| st_operationHandle := aHandle |})
                (tracking pending))).
Proof.
  refine (getOperationStatus_settles
            (scriptedRemote pending resolved None) []
            {| st_operationHandle := aHandle |} (tracking pending)
            pending resolved {| schema := Some twoColumns |}
            eq_refl eq_refl eq_refl eq_refl _ _ _); discriminate.
Defined.

(** ** Cancelling and closing *)

(** X9: cancelling twice, or cancelling and then closing, makes one remote
    cancel call in all: the first [cancelOperation] on a tracked statement
    makes it, and once it has resolved nothing is tracked, so the second
    call, like any [closeOperation], returns success without a remote
    call. *)
Theorem cancelOperation_idempotent (remote : Remote) (log : list RemoteCall)
    (request request' : TCancelOperationReq) (close : TCloseOperationReq)
    (this : RestDriver) (stmt : ExecuteStatementResponse) :
  currentStatement this = Some stmt →
  remote log (cancelExecutionCall (statement_id stmt)) = inr tt →
  let cancelled := invoke remote log (cancelOperation request) this in
  cancelled
  = (Returned {| ca_status := SUCCESS |}, set_currentStatement None this,
     log ++ [cancelExecutionCall (statement_id stmt)])
  ∧ invoke remote (logAfter cancelled) (cancelOperation request')
      (driverAfter cancelled)
    = (Returned {| ca_status := SUCCESS |}, driverAfter cancelled,
       logAfter cancelled)
  ∧ invoke remote (logAfter cancelled) (closeOperation close)
      (driverAfter cancelled)
    = (Returned {| co_status := SUCCESS |}, driverAfter cancelled,
       logAfter cancelled).
Proof.
  intros Hstmt Hreply. cbv zeta.
  rewrite invoke_cancelOperation, Hstmt, Hreply. simpl.
  repeat apply conj.
  - done.
  - by rewrite invoke_cancelOperation.
  - by rewrite invoke_closeOperation.
Qed.

Lemma cancelOperation_idempotent_witness :
  invoke (scriptedRemote succeeded stillPending None) []
    (cancelOperation {| ca_operationHandle := aHandle |}) (tracking succeeded)
  = (Returned {| ca_status := SUCCESS |},
     set_currentStatement None (tracking succeeded),
     [cancelExecutionCall "st-1"]).
Proof.
  exact (proj1
           (cancelOperation_idempotent
              (scriptedRemote succeeded stillPending None) []
              {| ca_operationHandle := aHandle |}
              {| ca_operationHandle := aHandle |}
              {| co_operationHandle := aHandle |}
              (tracking succeeded) succeeded eq_refl eq_refl)).
Defined.


(** ** Paging through the chunks *)

(** X11: the first [fetchResults] on a statement returns the chunk attached
    to it without a remote call, and reports "more rows" exactly when that
    chunk names a next index.  The fetch after it always calls the remote
    service, with the statement's id and the next index of the chunk just
    returned, also when that index is absent and "more rows" was false. *)
Theorem fetchResults_pages (remote : Remote) (log : list RemoteCall)
    (fetch : TFetchResultsReq) (this : RestDriver)
    (stmt : ExecuteStatementResponse) (chunk : ResultData)
    (rowSet : TRowSet) :
  currentStatement this = Some stmt →
  currentResultChunk this = None →
  result stmt = Some chunk →
  restJsonResultToThriftColumnar (schemaOf stmt) chunk = inr rowSet →
  let first := invoke remote log (fetchResults fetch) this in
  first
  = (Returned {| fr_status := SUCCESS;
                 hasMoreRows := Some (isDefined (next_chunk_index chunk));
                 results := Some rowSet |},
     set_currentResultChunk (Some chunk) this, log)
  ∧ ∀ (remote' : Remote) fetch',
      logAfter
        (invoke remote' log (fetchResults fetch') (driverAfter first))
      = log ++ [getStatementResultChunkNCall
                  (statement_id stmt) (next_chunk_index chunk)].
Proof.
  intros Hstmt Hchunk Hresult Hrows. cbv zeta.
  rewrite invoke_fetchResults, Hstmt, Hchunk, Hresult. simpl.
  unfold fetched. rewrite Hrows. split; [done |].
  intros remote' fetch'. rewrite invoke_fetchResults. simpl. rewrite Hstmt.
  destruct (remote' log _) as [e | [next |]]; try done;
    unfold afterSelect, fetched;
    by destruct (restJsonResultToThriftColumnar _ next).
Qed.

Lemma fetchResults_pages_witness :
  invoke (scriptedRemote succeeded stillPending None) []
    (fetchResults {| fr_operationHandle := aHandle |}) (tracking succeeded)
  = (Returned
       {| fr_status := SUCCESS;
          hasMoreRows := Some true;
          results :=
            Some {| startRowOffset := 0;
                    rows := [];
                    rs_columns :=
                      [stringColumn ["1"; "2"]; stringColumn ["a"; "b"]];
                    columnCount := 2 |} |},
     set_currentResultChunk (Some twoRows) (tracking succeeded), []).
Proof.
  exact (proj1
           (fetchResults_pages
              (scriptedRemote succeeded stillPending None) []
              {| fr_operationHandle := aHandle |} (tracking succeeded)
              succeeded twoRows _ eq_refl eq_refl eq_refl eq_refl)).
Defined.



(** ** Rows of uneven length *)

Lemma pushCells_length row : ∀ vss,
  length (pushCells row vss) = length vss.
Proof.
  induction row as [| cell rest IH]; intros [| vs vss]; simpl; auto.
Qed.

Lemma pushCells_lookup row : ∀ vss (j : nat),
  (length row ≤ length vss)%nat →
  pushCells row vss !! j
  = (λ vs, vs ++ option_list (row !! j)) <$> vss !! j.
Proof.
  induction row as [| cell rest IH]; intros vss j Hlen; simpl.
  { destruct vss; simpl; [by rewrite lookup_nil |].
    destruct (_ !! j); simpl; by rewrite ?app_nil_r. }
  destruct vss as [| vs vss]; simpl in *; [lia |].
  destruct j as [| j]; simpl; [done |].
  apply IH. lia.
Qed.

Lemma pushRow_pushCells row : ∀ i (vss : list (list string)),
  (i + length row ≤ length vss)%nat →
  pushRow i row (stringColumn <$> vss)
  = inr (stringColumn <$> (take i vss ++ pushCells row (drop i vss))).
Proof.
  induction row as [| cell rest IH]; intros i vss Hlen; simpl in *.
  { destruct (drop i vss) eqn:Hdrop; rewrite <- Hdrop;
      by rewrite take_drop. }
  destruct (lookup_lt_is_Some_2 vss i) as [vs Hvs]; [lia |].
  rewrite list_lookup_fmap, Hvs. simpl.
  change (push cell (stringColumn vs)) with (stringColumn (vs ++ [cell])).
  rewrite <- list_fmap_insert.
  rewrite IH by (rewrite length_insert; lia).
  do 2 f_equal.
  rewrite (take_S_r _ _ (vs ++ [cell]))
    by (apply list_lookup_insert_eq; by eapply lookup_lt_Some).
  rewrite take_insert_ge, drop_insert_lt by lia.
  rewrite (drop_S vss vs i Hvs). simpl. by rewrite <- app_assoc.
Qed.

Lemma forEachRow_pushCells data : ∀ vss : list (list string),
  Forall (λ row, (length row ≤ length vss)%nat) data →
  ∃ vss' : list (list string),
    forEachRow data (stringColumn <$> vss) = inr (stringColumn <$> vss')
    ∧ length vss' = length vss
    ∧ ∀ (j : nat) (vs : list string),
        vss !! j = Some vs →
        vss' !! j = Some (vs ++ omap (λ row, row !! j) data).
Proof.
  induction data as [| row rest IH]; intros vss Hrows; simpl.
  { exists vss. repeat split. intros j vs Hvs. by rewrite app_nil_r. }
  apply Forall_cons in Hrows as [Hrow Hrest].
  rewrite pushRow_pushCells by done. simpl. rewrite drop_0.
  destruct (IH (pushCells row vss)) as (vss' & Heach & Hlen' & Hcols).
  { by rewrite pushCells_length. }
  exists vss'. split; [done |]. split.
  { by rewrite Hlen', pushCells_length. }
  intros j vs Hvs.
  rewrite (Hcols j (vs ++ option_list (row !! j))).
  - rewrite <- app_assoc. by destruct (row !! j).
  - by rewrite pushCells_lookup, Hvs.
Qed.

(** X13: when no row has more cells than the schema has columns, the
    conversion returns a row set with start offset 0, no row-major rows, and
    one string column per schema column, counted from the column list and
    not from the schema's [column_count].  Column [j] holds the [j]-th cell
    of the rows that have one, in row order: a short row adds nothing to the
    columns past its end, so columns may end up of different lengths. *)
Theorem restJsonResultToThriftColumnar_ragged (sch : ResultSchema)
    (chunk : ResultData) :
  Forall (λ row, (length row ≤ length (columns sch))%nat) (rowsOf chunk) →
  ∃ rowSet,
    restJsonResultToThriftColumnar sch chunk = inr rowSet
    ∧ startRowOffset rowSet = 0
    ∧ rows rowSet = []
    ∧ columnCount rowSet = length (columns sch)
    ∧ length (rs_columns rowSet) = length (columns sch)
    ∧ ∀ j : nat,
        (j < length (columns sch))%nat →
        rs_columns rowSet !! j
        = Some (stringColumn (omap (λ row, row !! j) (rowsOf chunk))).
Proof.
  intros Hrows. rewrite restJsonResultToThriftColumnar_rows.
  change ((λ _ : ColumnInfo, emptyColumn) <$> columns sch)
    with ((stringColumn ∘ (λ _ : ColumnInfo, [])) <$> columns sch).
  rewrite list_fmap_compose.
  destruct (forEachRow_pushCells (rowsOf chunk) ((λ _, []) <$> columns sch))
    as (vss' & Heach & Hlen & Hcols).
  { by rewrite length_fmap. }
  rewrite Heach. rewrite length_fmap in Hlen.
  eexists. split; [done |]. simpl. rewrite length_fmap.
  repeat split; try done.
  intros j Hj.
  destruct (lookup_lt_is_Some_2 (columns sch) j Hj) as [column Hcolumn].
  rewrite list_lookup_fmap, (Hcols j []); [done |].
  by rewrite list_lookup_fmap, Hcolumn.
Qed.

Lemma restJsonResultToThriftColumnar_ragged_witness :
  ∃ rowSet,
    restJsonResultToThriftColumnar twoColumns raggedRows = inr rowSet
    ∧ startRowOffset rowSet = 0
    ∧ rows rowSet = []
    ∧ columnCount rowSet = length (columns twoColumns)
    ∧ length (rs_columns rowSet) = length (columns twoColumns)
    ∧ ∀ j : nat,
        (j < length (columns twoColumns))%nat →
        rs_columns rowSet !! j
        = Some (stringColumn (omap (λ row, row !! j) (rowsOf raggedRows))).
Proof.
  apply (restJsonResultToThriftColumnar_ragged twoColumns raggedRows).
  repeat constructor.
Defined.

Example raggedRows_converted :
  restJsonResultToThriftColumnar twoColumns raggedRows
  = inr {| startRowOffset := 0;
           rows := [];
           rs_columns :=
             [stringColumn ["1"; "2"; "4"]; stringColumn ["a"; "d"]];
           columnCount := 2 |}.
Proof. reflexivity. Qed.

(** ** Result-set metadata *)

(** X14: for a tracked statement [getResultSetMetadata] always returns a
    success in column-based format, makes no remote call and leaves the
    driver as it is.  Without a manifest schema the column list is empty;
    with one, every descriptor carries the column's name and a type
    description of exactly one primitive entry, the mapped type of the
    column. *)
Theorem getResultSetMetadata_descriptors (remote : Remote)
    (log : list RemoteCall) (request : TGetResultSetMetadataReq)
    (this : RestDriver) (stmt : ExecuteStatementResponse) :
  currentStatement this = Some stmt →
  ∃ descs,
    invoke remote log (getResultSetMetadata request) this
    = (Returned {| md_status := SUCCESS;
                   resultFormat := Some TSparkRowSetType.COLUMN_BASED_SET;
                   md_schema := Some {| ts_columns := descs |} |},
       this, log)
    ∧ (manifest stmt ≫= schema = None → descs = [])
    ∧ ∀ sch,
        manifest stmt ≫= schema = Some sch →
        Forall2
          (λ column desc,
             columnName desc = name column
             ∧ typeDesc desc
               = {| types :=
                      [ {| primitiveEntry :=
                             {| type :=
                                  restTypeNameToThriftTypeId
                                    (type_name column) |} |} ] |})
          (columns sch) descs.
Proof.
  intros Hstmt. rewrite invoke_getResultSetMetadata, Hstmt.
  eexists. split; [done |]. split.
  - by intros ->.
  - intros sch ->. apply Forall2_fmap_r, Forall_Forall2_diag, Forall_forall.
    by intros column _.
Qed.

Lemma getResultSetMetadata_descriptors_witness :
  ∃ descs,
    invoke (scriptedRemote pending stillPending None) []
      (getResultSetMetadata {| md_operationHandle := aHandle |})
      (tracking pending)
    = (Returned {| md_status := SUCCESS;
                   resultFormat := Some TSparkRowSetType.COLUMN_BASED_SET;
                   md_schema := Some {| ts_columns := descs |} |},
       tracking pending, [])
    ∧ (manifest pending ≫= schema = None → descs = [])
    ∧ ∀ sch,
        manifest pending ≫= schema = Some sch →
        Forall2
          (λ column desc,
             columnName desc = name column
             ∧ typeDesc desc
               = {| types :=
                      [ {| primitiveEntry :=
                             {| type :=
                                  restTypeNameToThriftTypeId
                                    (type_name column) |} |} ] |})
          (columns sch) descs.
Proof.
  exact (getResultSetMetadata_descriptors
           (scriptedRemote pending stillPending None) []
           {| md_operationHandle := aHandle |} (tracking pending) pending
           eq_refl).
Defined.

(** ** An invariant of the driver *)

Lemma invoke_attempt {A} remote log (m : M A) this :
  invoke remote log (attempt m) this
  = (Returned (completion (invoke remote log m this)),
     driverAfter (invoke remote log m this),
     logAfter (invoke remote log m this)).
Proof.
  unfold invoke, attempt, completion, driverAfter, logAfter.
  rewrite run_progBind.
  by destruct (run remote log (m this)) as [[c this'] log'].
Qed.

Lemma invoke_discard {A} remote log (m : M A) this :
  invoke remote log (discard m) this
  = (Returned tt, driverAfter (invoke remote log m this),
     logAfter (invoke remote log m this)).
Proof. unfold discard. by rewrite invoke_bind, invoke_attempt. Qed.

Lemma tracksLive_unchanged this this' :
  currentStatement this' = currentStatement this →
  tracksLive this → tracksLive this'.
Proof. unfold tracksLive. intros ->. done. Qed.

Lemma tracksLive_none this :
  currentStatement this = None → tracksLive this.
Proof. unfold tracksLive. by intros ->. Qed.

Lemma executeStatement_tracksLive remote log request this :
  tracksLive this →
  tracksLive (driverAfter (invoke remote log (executeStatement request) this)).
Proof.
  intros Hlive. rewrite invoke_executeStatement.
  destruct (remote log _) as [e | response]; [done |].
  rewrite invoke_processStatementStatus.
  destruct (state (status response)) eqn:Hstate,
    (error (status response)); simpl;
    try (by apply tracksLive_none);
    intros stmt [= <-]; by rewrite Hstate.
Qed.

Lemma getOperationStatus_tracksLive remote log request this :
  tracksLive this →
  tracksLive
    (driverAfter (invoke remote log (getOperationStatus request) this)).
Proof.
  intros Hlive. rewrite invoke_getOperationStatus.
  destruct (currentStatement this) as [stmt |] eqn:Hstmt; [| done].
  destruct (isDefined (manifest stmt)); [done |].
  destruct (remote log _) as [e | response]; [done |].
  rewrite invoke_processStatementStatus.
  destruct (state (gs_status response)) eqn:Hstate,
    (error (gs_status response)); simpl;
    try (by apply tracksLive_none);
    intros stmt' [= <-]; simpl; by rewrite Hstate.
Qed.

Lemma fetchResults_tracksLive remote log request this :
  tracksLive this →
  tracksLive (driverAfter (invoke remote log (fetchResults request) this)).
Proof.
  intros Hlive. rewrite invoke_fetchResults.
  destruct (currentStatement this) as [stmt |] eqn:Hstmt; [| done].
  assert (∀ chunk log',
            tracksLive (driverAfter (afterSelect stmt chunk this log')))
    as Hselect.
  { intros [chunk |] log'; by apply (tracksLive_unchanged this). }
  destruct (currentResultChunk this); [| by apply Hselect].
  destruct (remote log _) as [e | chunk]; [done | by apply Hselect].
Qed.

Lemma cancelOperation_tracksLive remote log request this :
  tracksLive this →
  tracksLive (driverAfter (invoke remote log (cancelOperation request) this)).
Proof.
  intros Hlive. rewrite invoke_cancelOperation.
  destruct (currentStatement this) as [stmt |]; [| done].
  destruct (remote log _) as [e | []]; [done | by apply tracksLive_none].
Qed.

Lemma perform_tracksLive remote log call this :
  tracksLive this →
  tracksLive (driverAfter (invoke remote log (perform call) this)).
Proof.
  intros Hlive. destruct call; simpl; rewrite invoke_discard; simpl.
  - by rewrite invoke_openSession.
  - by rewrite invoke_closeSession.
  - by apply executeStatement_tracksLive.
  - rewrite invoke_getResultSetMetadata.
    by destruct (currentStatement this) eqn:Hstmt.
  - by apply fetchResults_tracksLive.
  - by apply getOperationStatus_tracksLive.
  - by apply cancelOperation_tracksLive.
  - rewrite invoke_closeOperation. by apply tracksLive_none.
  - done.
Qed.

Lemma performAll_tracksLive remote calls : ∀ log this,
  tracksLive this →
  completion (invoke remote log (performAll calls) this) = Returned tt
  ∧ tracksLive (driverAfter (invoke remote log (performAll calls) this)).
Proof.
  induction calls as [| call rest IH]; intros log this Hlive; simpl.
  { done. }
  rewrite invoke_bind.
  pose proof (perform_tracksLive remote log call this Hlive) as Hnext.
  destruct call; simpl in *; rewrite invoke_discard in *; simpl in *;
    by apply IH.
Qed.

Lemma getOperationStatus_returns remote log request this r :
  completion (invoke remote log (getOperationStatus request) this)
  = Returned r →
  r = statusResponse
        (driverAfter (invoke remote log (getOperationStatus request) this)).
Proof.
  rewrite invoke_getOperationStatus.
  destruct (currentStatement this) as [stmt |] eqn:Hstmt;
    [| by intros [= <-]].
  destruct (isDefined (manifest stmt)); [by intros [= <-] |].
  destruct (remote log _) as [e | response]; [done |].
  rewrite invoke_processStatementStatus.
  destruct (state (gs_status response)), (error (gs_status response));
    simpl; by intros [= <-].
Qed.

(** X15: after any sequence of calls on a new driver, in which calls may
    have thrown and the caller gone on, the statement the driver tracks, if
    any, is neither canceled nor closed.  So [getOperationStatus] never
    reports the canceled or the closed operation state: a statement the
    remote service reports as such is answered by "Invalid handle". *)
Theorem tracked_statement_never_canceled (remote : Remote)
    (client : RestClient) (calls : list DriverCall) (log : list RemoteCall) :
  let after := invoke remote log (performAll calls) (newRestDriver client) in
  completion after = Returned tt
  ∧ tracksLive (driverAfter after)
  ∧ ∀ request r,
      completion
        (invoke remote (logAfter after) (getOperationStatus request)
           (driverAfter after))
      = Returned r →
      operationState r ≠ Some TOperationState.CANCELED_STATE
      ∧ operationState r ≠ Some TOperationState.CLOSED_STATE.
Proof.
  cbv zeta.
  destruct (performAll_tracksLive remote calls log (newRestDriver client))
    as [Hdone Hlive]; [done |].
  split; [done |]. split; [done |].
  intros request r Hr. apply getOperationStatus_returns in Hr.
  pose proof (getOperationStatus_tracksLive remote
                (logAfter (invoke remote log (performAll calls)
                             (newRestDriver client)))
                request _ Hlive) as Hlive'.
  rewrite Hr. unfold statusResponse.
  destruct (currentStatement _) as [stmt |] eqn:Hstmt; [| done].
  destruct (Hlive' stmt Hstmt) as [Hcanceled Hclosed]. simpl.
  by destruct (state (status stmt)).
Qed.

Lemma tracked_statement_never_canceled_witness :
  ∃ r,
    completion
      (invoke (scriptedRemote succeeded stillPending None)
         (logAfter
            (invoke (scriptedRemote succeeded stillPending None) []
               (performAll someCalls) (newRestDriver aClient)))
         (getOperationStatus {| st_operationHandle := aHandle |})
         (driverAfter
            (invoke (scriptedRemote succeeded stillPending None) []
               (performAll someCalls) (newRestDriver aClient))))
    = Returned r
    ∧ operationState r ≠ Some TOperationState.CANCELED_STATE
    ∧ operationState r ≠ Some TOperationState.CLOSED_STATE.
Proof.
  eexists. split; [reflexivity |].
  exact (proj2 (proj2
           (tracked_statement_never_canceled
              (scriptedRemote succeeded stillPending None) aClient
              someCalls []))
           {| st_operationHandle := aHandle |} _ eq_refl).
Defined.

(** * [CompleteOperationHelper] *)

Lemma invoke_assertStatus remote log S status this :
  invoke remote log (assertStatus S status) this
  = match Status_assert S status with
    | Some e => (Threw e, this, log)
    | None => (Returned tt, this, log)
    end.
Proof. unfold assertStatus. by destruct (Status_assert S status). Qed.

Lemma invoke_helper_cancel remote log S h this :
  invoke remote log (helper_cancel S h) this
  = if cancelled h then (Returned (Status_success S, h), this, log)
    else
      match invoke remote log
              (driver_cancelOperation (helper_driver h)
                 {| ca_operationHandle := helper_operationHandle h |})
              this with
      | (Threw e, this', log') => (Threw e, this', log')
      | (Returned response, this', log') =>
          match Status_assert S (ca_status response) with
          | Some e => (Threw e, this', log')
          | None =>
              (Returned (Status_new S (ca_status response),
                         set_cancelled true h), this', log')
          end
      end.
Proof.
  unfold helper_cancel. destruct (cancelled h); [done |].
  rewrite invoke_bind.
  destruct (invoke remote log _ this) as [[[response | e] this'] log'];
    [| done].
  rewrite invoke_bind, invoke_assertStatus.
  by destruct (Status_assert S (ca_status response)).
Qed.

Lemma invoke_helper_close remote log S h this :
  invoke remote log (helper_close S h) this
  = if closed h then (Returned (Status_success S, h), this, log)
    else
      match invoke remote log
              (driver_closeOperation (helper_driver h)
                 {| co_operationHandle := helper_operationHandle h |})
              this with
      | (Threw e, this', log') => (Threw e, this', log')
      | (Returned response, this', log') =>
          match Status_assert S (co_status response) with
          | Some e => (Threw e, this', log')
          | None =>
              (Returned (Status_new S (co_status response),
                         set_closed true h), this', log')
          end
      end.
Proof.
  unfold helper_close. destruct (closed h); [done |].
  rewrite invoke_bind.
  destruct (invoke remote log _ this) as [[[response | e] this'] log'];
    [| done].
  rewrite invoke_bind, invoke_assertStatus.
  by destruct (Status_assert S (co_status response)).
Qed.



(** X17: a helper is never created cancelled.  Created without a close
    response it is not closed either; created with a close response that
    [Status.assert] accepts it is closed, and its [close] returns
    [Status.success()] without calling the driver; created with a close
    response that [Status.assert] rejects, the constructor throws what
    [Status.assert] threw. *)
Theorem newCompleteOperationHelper_flags (S : StatusClass)
    (driver : OperationDriver) (handle : TOperationHandle)
    (response : TCloseOperationResp) :
  newCompleteOperationHelper S driver handle None
  = inr {| helper_driver := driver;
           helper_operationHandle := handle;
           closed := false;
           cancelled := false |}
  ∧ (Status_assert S (co_status response) = None →
     ∃ h,
       newCompleteOperationHelper S driver handle (Some response) = inr h
       ∧ closed h = true
       ∧ cancelled h = false
       ∧ ∀ (remote : Remote) log this,
           invoke remote log (helper_close S h) this
           = (Returned (Status_success S, h), this, log))
  ∧ (∀ e,
       Status_assert S (co_status response) = Some e →
       newCompleteOperationHelper S driver handle (Some response) = inl e)
  ∧ (∀ given h,
       newCompleteOperationHelper S driver handle given = inr h →
       cancelled h = false
       ∧ helper_driver h = driver
       ∧ helper_operationHandle h = handle).
Proof.
  unfold newCompleteOperationHelper. repeat apply conj.
  - done.
  - intros ->. eexists. split; [done |]. split; [done |]. split; [done |].
    intros remote log this. by rewrite invoke_helper_close.
  - by intros e ->.
  - intros [given |] h.
    + destruct (Status_assert S (co_status given)); [done |].
      by intros [= <-].
    + by intros [= <-].
Qed.

Lemma newCompleteOperationHelper_flags_witness :
  ∃ h,
    newCompleteOperationHelper plainStatus restOperationDriver aHandle
      (Some {| co_status := SUCCESS |})
    = inr h
    ∧ closed h = true
    ∧ cancelled h = false
    ∧ ∀ (remote : Remote) log this,
        invoke remote log (helper_close plainStatus h) this
        = (Returned (Status_success plainStatus, h), this, log).
Proof.
  exact (proj1 (proj2
           (newCompleteOperationHelper_flags plainStatus restOperationDriver
              aHandle {| co_status := SUCCESS |}))
           eq_refl).
Defined.

(** Reads the fields of a helper that is given by its record. *)
Ltac reduce_helper :=
  cbn [helper_driver helper_operationHandle closed cancelled
       driver_cancelOperation driver_closeOperation restOperationDriver].

(** X18: the helper over [RestDriver], with a [Status] class that accepts
    the success status.  [close] never throws and never reaches the remote
    service: it stops the tracking and marks the helper closed.  [cancel]
    reaches the remote service only when a statement is tracked; when that
    call resolves, nothing is tracked and the helper is marked cancelled;
    when it is rejected, [cancel] throws the rejection and the statement is
    still tracked. *)
Theorem helper_over_RestDriver (S : StatusClass) (handle : TOperationHandle)
    (remote : Remote) (log : list RemoteCall) (this : RestDriver) :
  Status_assert S SUCCESS = None →
  let h := {| helper_driver := restOperationDriver;
              helper_operationHandle := handle;
              closed := false;
              cancelled := false |} in
  invoke remote log (helper_close S h) this
  = (Returned (Status_new S SUCCESS, set_closed true h),
     set_currentStatement None this, log)
  ∧ (currentStatement this = None →
     invoke remote log (helper_cancel S h) this
     = (Returned (Status_new S SUCCESS, set_cancelled true h), this, log))
  ∧ (∀ stmt,
       currentStatement this = Some stmt →
       remote log (cancelExecutionCall (statement_id stmt)) = inr tt →
       invoke remote log (helper_cancel S h) this
       = (Returned (Status_new S SUCCESS, set_cancelled true h),
          set_currentStatement None this,
          log ++ [cancelExecutionCall (statement_id stmt)]))
  ∧ (∀ stmt e,
       currentStatement this = Some stmt →
       remote log (cancelExecutionCall (statement_id stmt)) = inl e →
       invoke remote log (helper_cancel S h) this
       = (Threw e, this, log ++ [cancelExecutionCall (statement_id stmt)])).
Proof.
  intros Haccepts. cbv zeta. repeat apply conj.
  - rewrite invoke_helper_close. reduce_helper.
    rewrite invoke_closeOperation. simpl. by rewrite Haccepts.
  - intros Hnone. rewrite invoke_helper_cancel. reduce_helper.
    rewrite invoke_cancelOperation, Hnone. simpl. by rewrite Haccepts.
  - intros stmt Hstmt Hreply. rewrite invoke_helper_cancel. reduce_helper.
    rewrite invoke_cancelOperation, Hstmt, Hreply. simpl.
    by rewrite Haccepts.
  - intros stmt e Hstmt Hreply. rewrite invoke_helper_cancel. reduce_helper.
    by rewrite invoke_cancelOperation, Hstmt, Hreply.
Qed.

Lemma helper_over_RestDriver_witness :
  invoke (scriptedRemote succeeded stillPending None) []
    (helper_cancel plainStatus aHelper) (tracking succeeded)
  = (Returned (SUCCESS, set_cancelled true aHelper),
     set_currentStatement None (tracking succeeded),
     [cancelExecutionCall "st-1"]).
Proof.
  exact (proj1 (proj2 (proj2
           (helper_over_RestDriver plainStatus aHandle
              (scriptedRemote succeeded stillPending None) []
              (tracking succeeded) eq_refl)))
           succeeded eq_refl eq_refl).
Defined.
